(** * A shallow embedding of go-verkle's node encoding and tree operations.

    The node decoder [ParseNode] of encoding.go is translated together with
    the parts of go-ethereum's [rlp] package it calls ([Split],
    [SplitString], [SplitList], [CountValues] and their [readKind] /
    [readSize] helpers) and [common.BytesToHash].  Bytes are [Byte.byte];
    sizes that come from length prefixes are [N], as the Go code reads them
    into a [uint64]. *)

From Stdlib Require Import Strings.Byte NArith ZArith Lia.
From stdpp Require Import base list sorting.

Local Set Warnings "-register-all".
Open Scope N_scope.

(** ** Results and errors *)

Inductive error :=
| ErrUnexpectedEOF        (* io.ErrUnexpectedEOF *)
| ErrCanonSize            (* rlp.ErrCanonSize *)
| ErrValueTooLarge        (* rlp.ErrValueTooLarge *)
| ErrExpectedString       (* rlp.ErrExpectedString *)
| ErrExpectedList         (* rlp.ErrExpectedList *)
| ErrInvalidNodeEncoding  (* errors.New(ErrInvalidNodeEncoding) *)
| ErrIndexOutOfRange      (* runtime panic: index out of range *)
| ErrValueNotPresent      (* errValueNotPresent: NotFound *)
| ErrOpaque               (* descent through a hashed node *)
| ErrInsertIntoHashed
| ErrDepthExceeded
| ErrKeyOutOfOrder.

Inductive result (A : Type) :=
| Ok (a : A)
| Err (e : error).
Arguments Ok {A} a.
Arguments Err {A} e.

Definition bind {A B} (m : result A) (k : A -> result B) : result B :=
  match m with Ok a => k a | Err e => Err e end.

Notation "x <- m ;; k" := (bind m (fun x => k))
  (at level 100, m at level 99, right associativity).

(** ** Bytes *)

#[global] Instance byte_eq_decision : EqDecision byte := Byte.byte_eq_dec.

Definition bval (b : byte) : N := Byte.to_N b.

Definition byte_of (n : N) : byte :=
  match Byte.of_N n with Some b => b | None => x00 end.

(** Big-endian value of a byte string. *)
Definition be_N (bs : list byte) : N :=
  fold_left (fun acc b => acc * 256 + bval b) bs 0.

(** ** go-ethereum rlp/raw.go *)

Module RLP.

Inductive Kind := Byte | String | List.

Definition kind_eqb (a b : Kind) : bool :=
  match a, b with
  | Byte, Byte | String, String | List, List => true
  | _, _ => false
  end.

(** [readSize]: the [slen] bytes at the start of [b] as a big-endian size,
    rejecting sizes below 56 and sizes with a leading zero byte. *)
Definition readSize (b : list byte) (slen : N) : result N :=
  if N.of_nat (length b) <? slen then Err ErrUnexpectedEOF
  else
    let s := be_N (firstn (N.to_nat slen) b) in
    let b0 := match b with c :: _ => bval c | [] => 0 end in
    if (s <? 56) || (b0 =? 0) then Err ErrCanonSize else Ok s.

(** [readKind]: kind, tag size and content size of the first value. *)
Definition readKind (buf : list byte) : result (Kind * N * N) :=
  match buf with
  | [] => Err ErrUnexpectedEOF
  | b :: rest =>
      let n := bval b in
      let r :=
        if n <? 128 then Ok (Byte, 0, 1)
        else if n <? 184 then
          (* reject strings that should have been single bytes *)
          if (n - 128 =? 1)
             && match rest with c :: _ => bval c <? 128 | [] => false end
          then Err ErrCanonSize
          else Ok (String, 1, n - 128)
        else if n <? 192 then
          cs <- readSize rest (n - 183) ;; Ok (String, n - 183 + 1, cs)
        else if n <? 248 then Ok (List, 1, n - 192)
        else
          cs <- readSize rest (n - 247) ;; Ok (List, n - 247 + 1, cs) in
      bind r (fun '(k, ts, cs) =>
        (* reject values larger than the input slice *)
        if N.of_nat (length buf) - ts <? cs then Err ErrValueTooLarge
        else Ok (k, ts, cs))
  end.

(** [Split]: the content of the first value and the bytes after it. *)
Definition Split (b : list byte) : result (Kind * list byte * list byte) :=
  bind (readKind b) (fun '(k, ts, cs) =>
    Ok (k, firstn (N.to_nat cs) (skipn (N.to_nat ts) b),
        skipn (N.to_nat (ts + cs)) b)).

Definition SplitString (b : list byte) : result (list byte * list byte) :=
  bind (Split b) (fun '(k, content, rest) =>
    if kind_eqb k List then Err ErrExpectedString else Ok (content, rest)).

Definition SplitList (b : list byte) : result (list byte * list byte) :=
  bind (Split b) (fun '(k, content, rest) =>
    if kind_eqb k List then Ok (content, rest) else Err ErrExpectedList).

(** [CountValues]: the loop runs while [b] is non-empty and every step
    drops at least one byte, so [length b] steps suffice; [fuel] counts
    them. *)
Fixpoint countValues (fuel : nat) (b : list byte) : result nat :=
  match b with
  | [] => Ok 0%nat
  | _ :: _ =>
      match fuel with
      | O => Ok 0%nat
      | S fuel' =>
          bind (readKind b) (fun '(_, ts, cs) =>
            c <- countValues fuel' (skipn (N.to_nat (ts + cs)) b) ;;
            Ok (S c))
      end
  end.

Definition CountValues (b : list byte) : result nat :=
  countValues (length b) b.

(** *** The canonical encoder (rlp.EncodeToBytes on strings and lists) *)

Inductive item :=
| RStr (s : list byte)
| RList (l : list item).

(** [n] as exactly [k] big-endian bytes. *)
Fixpoint be_bytes (k : nat) (n : N) : list byte :=
  match k with
  | O => []
  | S k' => byte_of ((n / 256 ^ N.of_nat k') mod 256) :: be_bytes k' n
  end.

(** Number of bytes of the big-endian form of a positive [n]. *)
Definition len_bytes (n : N) : nat := N.to_nat (N.log2 n / 8 + 1).

Definition header (short long len : N) : list byte :=
  if len <? 56 then [byte_of (short + len)]
  else byte_of (long + N.of_nat (len_bytes len)) :: be_bytes (len_bytes len) len.

Fixpoint encode (it : item) : list byte :=
  match it with
  | RStr [b] => if bval b <? 128 then [b] else header 128 183 1 ++ [b]
  | RStr s => header 128 183 (N.of_nat (length s)) ++ s
  | RList l =>
      let p := concat (map encode l) in
      header 192 247 (N.of_nat (length p)) ++ p
  end.

Definition payload (l : list item) : list byte := concat (map encode l).

(** Lengths that fit the 8-byte size prefix of the format. *)
Fixpoint item_ok (it : item) : bool :=
  match it with
  | RStr s => N.of_nat (length s) <? 2 ^ 64
  | RList l =>
      forallb item_ok l && (N.of_nat (length (concat (map encode l))) <? 2 ^ 64)
  end.

End RLP.

(** ** go-ethereum common.BytesToHash: keep the last 32 bytes of [b] and
    left-pad them with zero bytes. *)
Definition BytesToHash (b : list byte) : list byte :=
  let b' := if (32 <? length b)%nat then skipn (length b - 32) b else b in
  repeat x00 (32 - length b') ++ b'.

(** ** encoding.go *)

Module Encoding.
Import RLP.

(** The node variants of the package ([InternalNode], [LeafNode],
    [HashedNode]); an [Empty] child slot is [None].  The commitment caches
    of [InternalNode] are not part of the encoding and are left out. *)
Inductive VerkleNode :=
| InternalNode (depth : nat) (children : list (option VerkleNode))
| LeafNode (key value : list byte)
| HashedNode (hash : list byte).

(** Modelled from the spec: the tree configuration ([TreeConfig]) and the
    constructor [newInternalNode] of tree.go, which is not among the
    sources: a configuration of width [w] gives internal nodes
    [NodeChildren = 2^w] child slots, all empty when the node is created. *)
Record TreeConfig := { nodeWidth : nat }.

Definition nodeChildren (tc : TreeConfig) : nat := 2 ^ nodeWidth tc.

Definition newInternalNode (depth : nat) (tc : TreeConfig) : VerkleNode :=
  InternalNode depth (repeat None (nodeChildren tc)).

Definition parseHashedNode (raw : list byte) : result VerkleNode :=
  bind (SplitString raw) (fun '(h, _) => Ok (HashedNode (BytesToHash h))).

Definition parseLeafNode (raw : list byte) : result VerkleNode :=
  bind (SplitString raw) (fun '(key, rest) =>
  bind (SplitString rest) (fun '(value, _) =>
    Ok (LeafNode key value))).

(** [indicesFromBitlist]: byte [i], bit [j] (least significant first) gives
    index [8*i + j]; zero bytes are skipped. *)
Definition byteIndices (i : nat) (b : byte) : list nat :=
  if bval b =? 0 then []
  else flat_map (fun j => if N.testbit (bval b) (N.of_nat j) then [i * 8 + j]%nat
                          else []) (seq 0 8).

Fixpoint indicesFrom (i : nat) (bitlist : list byte) : list nat :=
  match bitlist with
  | [] => []
  | b :: bl => byteIndices i b ++ indicesFrom (S i) bl
  end.

Definition indicesFromBitlist (bitlist : list byte) : list nat :=
  indicesFrom 0 bitlist.

(** [n.children[index] = x]: Go panics when [index] is out of range. *)
Definition setChild (index : nat) (x : VerkleNode)
    (ch : list (option VerkleNode)) : result (list (option VerkleNode)) :=
  if (index <? length ch)%nat then Ok (<[index := Some x]> ch)
  else Err ErrIndexOutOfRange.

(** The loop of [createInternalNode] over [indices]. *)
Fixpoint fillChildren (indices : list nat) (raw : list byte)
    (ch : list (option VerkleNode)) : result (list (option VerkleNode)) :=
  match indices with
  | [] => Ok ch
  | index :: indices' =>
      bind (SplitList raw) (fun '(el, rest) =>
      c <- CountValues el ;;
      ch' <- (match c with
              | 1%nat => hashed <- parseHashedNode el ;; setChild index hashed ch
              | 2%nat => leaf <- parseLeafNode el ;; setChild index leaf ch
              | _ => Ok ch
              end) ;;
      fillChildren indices' rest ch')
  end.

Definition createInternalNode (bitlist raw : list byte) (tc : TreeConfig)
    : result VerkleNode :=
  (* TODO: fix depth *)
  match newInternalNode 0 tc with
  | InternalNode d ch =>
      ch' <- fillChildren (indicesFromBitlist bitlist) raw ch ;;
      Ok (InternalNode d ch')
  | n => Ok n
  end.

Definition ParseNode (serialized : list byte) (tc : TreeConfig)
    : result VerkleNode :=
  bind (SplitList serialized) (fun '(elems, _) =>
  c <- CountValues elems ;;
  if (c =? 1)%nat then parseHashedNode elems
  else if (c =? 2)%nat then
    bind (Split elems) (fun '(kind, first, rest) =>
    if negb (kind_eqb kind String) then Err ErrInvalidNodeEncoding
    else if (length first =? 32)%nat then
      bind (SplitString rest) (fun '(value, _) => Ok (LeafNode first value))
    else if (length first =? 128)%nat then
      bind (SplitList rest) (fun '(children, _) =>
        createInternalNode first children tc)
    else Err ErrInvalidNodeEncoding)
  else Err ErrInvalidNodeEncoding).

(** Modelled from the spec: [Serialize] of tree.go is not among the
    sources.  Section 4.E: a hashed node is [[hash]], a leaf
    [[key, value]], an internal node [[bitlist, children]] where bit [i] of
    the [NodeChildren/8]-byte bitlist (byte [i/8], bit [i mod 8] counted
    from the least significant end, as [indicesFromBitlist] reads it) is 1
    iff slot [i] is occupied, and [children] lists the encodings of the
    occupied slots in increasing slot order. *)
Definition occupied (ch : list (option VerkleNode)) (s : nat) : bool :=
  match ch !! s with Some (Some _) => true | _ => false end.

Definition bitlistOf (ch : list (option VerkleNode)) : list byte :=
  map (fun i => byte_of (fold_right (fun j acc =>
                   if occupied ch (i * 8 + j) then 2 ^ N.of_nat j + acc else acc)
                   0 (seq 0 8)))
      (seq 0 (length ch / 8)).

Fixpoint toItem (n : VerkleNode) : item :=
  match n with
  | HashedNode h => RList [RStr h]
  | LeafNode k v => RList [RStr k; RStr v]
  | InternalNode _ ch =>
      RList [RStr (bitlistOf ch);
             RList ((fix occ (l : list (option VerkleNode)) : list item :=
                       match l with
                       | [] => []
                       | None :: l' => occ l'
                       | Some c :: l' => toItem c :: occ l'
                       end) ch)]
  end.

Definition Serialize (n : VerkleNode) : list byte := encode (toItem n).

End Encoding.

(** ** The tree (tree.go)

    Modelled from the spec: tree.go, which holds [Insert], [InsertOrdered],
    [Get], [ComputeCommitment] and [Hash], is not among the sources; the
    definitions of this module follow sections 3 and 4 of the spec.  The
    width [w] is a parameter; the curve library (scalar field [Fr], group
    [G1], the Lagrange-basis multi-scalar multiplication [commit], the
    hash-to-field of a point [hashG1] and of a leaf [leafHash]) is left
    abstract, as the spec treats it as an external collaborator. *)

Module Tree.

Section Model.

Context (w : nat).
Context {Fr G1 : Type}.
Context (zero : Fr) (commit : list Fr -> G1) (hashG1 : G1 -> Fr)
        (leafHash : list byte -> list byte -> Fr).

(** [NodeChildren = 2^w] and [Depth = ceil(256 / w)]. *)
Definition NodeChildren : nat := 2 ^ w.
Definition Depth : nat := (256 + w - 1) / w.

(** A 32-byte key read bit-wise, most significant bit first. *)
Definition keyZ (key : list byte) : Z := Z.of_N (be_N key).

(** The first [d * w] bits of the key (bits past 256 read as zero). *)
Definition prefix (d : nat) (key : list byte) : Z :=
  (keyZ key * 2 ^ Z.of_nat (d * w) / 2 ^ 256)%Z.

(** Key-to-child index: bits [[d*w, (d+1)*w)] as a big-endian integer. *)
Definition offset2key (key : list byte) (d : nat) : nat :=
  Z.to_nat (prefix (S d) key mod 2 ^ Z.of_nat w)%Z.

Inductive node :=
| Internal (depth : nat) (children : list (option node))
| Leaf (key value : list byte)
| Hashed (hash : Fr).

Definition newInternal (depth : nat) : node :=
  Internal depth (repeat None NodeChildren).

(** [New()]: the empty root. *)
Definition New : node := newInternal 0.

(** [Insert] descends one level per step; [fuel] bounds the number of
    levels, and its exhaustion is the depth failure. *)
Fixpoint ins (fuel : nat) (n : node) (key value : list byte) : result node :=
  match fuel with
  | O => Err ErrDepthExceeded
  | S fuel' =>
      match n with
      | Internal d ch =>
          let i := offset2key key d in
          match ch !! i with
          | None => Err ErrIndexOutOfRange
          | Some None => Ok (Internal d (<[i := Some (Leaf key value)]> ch))
          | Some (Some (Leaf k v)) =>
              if decide (k = key)
              then Ok (Internal d (<[i := Some (Leaf key value)]> ch))
              else if (Depth <? d + 1)%nat then Err ErrDepthExceeded
              else
                c1 <- ins fuel' (newInternal (S d)) k v ;;
                c2 <- ins fuel' c1 key value ;;
                Ok (Internal d (<[i := Some c2]> ch))
          | Some (Some (Internal d' ch')) =>
              c <- ins fuel' (Internal d' ch') key value ;;
              Ok (Internal d (<[i := Some c]> ch))
          | Some (Some (Hashed _)) => Err ErrInsertIntoHashed
          end
      (* insertion always starts at an internal root *)
      | Leaf _ _ => Err ErrInvalidNodeEncoding
      | Hashed _ => Err ErrInsertIntoHashed
      end
  end.

Definition Insert (root : node) (key value : list byte) : result node :=
  ins (S Depth) root key value.

Fixpoint Get (n : node) (key : list byte) {struct n} : result (list byte) :=
  match n with
  | Internal d ch =>
      (fix slot (i : nat) (l : list (option node)) {struct l} : result (list byte) :=
         match l, i with
         | [], _ => Err ErrValueNotPresent
         | None :: _, O => Err ErrValueNotPresent
         | Some c :: _, O => Get c key
         | _ :: l', S i' => slot i' l'
         end) (offset2key key d) ch
  | Leaf k v => if decide (k = key) then Ok v else Err ErrValueNotPresent
  | Hashed _ => Err ErrOpaque
  end.

(** The commitment engine: a child contributes the hash of its subtree,
    an empty slot contributes [zero]. *)
Fixpoint Hash (n : node) : Fr :=
  match n with
  | Internal _ ch =>
      hashG1 (commit (map (fun oc => match oc with
                                     | None => zero
                                     | Some c => Hash c
                                     end) ch))
  | Leaf k v => leafHash k v
  | Hashed h => h
  end.

Definition slotHash (oc : option node) : Fr :=
  match oc with None => zero | Some c => Hash c end.

(** [ComputeCommitment] of an internal node; the other variants have no
    commitment of their own. *)
Definition ComputeCommitment (n : node) : option G1 :=
  match n with
  | Internal _ ch => Some (commit (map slotHash ch))
  | _ => None
  end.

(** [InsertOrdered]: before descending into slot [i], every leaf or
    internal child left of [i] is final and is replaced by a hashed node
    carrying its hash. *)
Definition finalize (oc : option node) : option node :=
  match oc with
  | Some (Leaf k v) => Some (Hashed (Hash (Leaf k v)))
  | Some (Internal d ch) => Some (Hashed (Hash (Internal d ch)))
  | _ => oc
  end.

Definition finalizeLeft (i : nat) (ch : list (option node)) : list (option node) :=
  imap (fun j oc => if (j <? i)%nat then finalize oc else oc) ch.

Fixpoint insOrdered (fuel : nat) (n : node) (key value : list byte) : result node :=
  match fuel with
  | O => Err ErrDepthExceeded
  | S fuel' =>
      match n with
      | Internal d ch0 =>
          let i := offset2key key d in
          let ch := finalizeLeft i ch0 in
          match ch !! i with
          | None => Err ErrIndexOutOfRange
          | Some None => Ok (Internal d (<[i := Some (Leaf key value)]> ch))
          | Some (Some (Leaf k v)) =>
              if decide (k = key)
              then Ok (Internal d (<[i := Some (Leaf key value)]> ch))
              else if (Depth <? d + 1)%nat then Err ErrDepthExceeded
              else
                c1 <- insOrdered fuel' (newInternal (S d)) k v ;;
                c2 <- insOrdered fuel' c1 key value ;;
                Ok (Internal d (<[i := Some c2]> ch))
          | Some (Some (Internal d' ch')) =>
              c <- insOrdered fuel' (Internal d' ch') key value ;;
              Ok (Internal d (<[i := Some c]> ch))
          | Some (Some (Hashed _)) => Err ErrInsertIntoHashed
          end
      | Leaf _ _ => Err ErrInvalidNodeEncoding
      | Hashed _ => Err ErrInsertIntoHashed
      end
  end.

(** [bytes.Compare]. *)
Fixpoint bytesCompare (a b : list byte) : comparison :=
  match a, b with
  | [], [] => Eq
  | [], _ :: _ => Lt
  | _ :: _, [] => Gt
  | x :: a', y :: b' =>
      match N.compare (bval x) (bval y) with
      | Eq => bytesCompare a' b'
      | c => c
      end
  end.

Definition keyLt (a b : list byte) : bool :=
  match bytesCompare a b with Lt => true | _ => false end.

(** The ordered-insertion state: the root and the last key inserted; a
    key below the last one is refused. *)
Definition InsertOrdered (st : node * option (list byte)) (key value : list byte)
    : result (node * option (list byte)) :=
  let '(root, last) := st in
  let ordered := match last with Some l => negb (keyLt key l) | None => true end in
  if ordered then r <- insOrdered (S Depth) root key value ;; Ok (r, Some key)
  else Err ErrKeyOutOfOrder.

Fixpoint insertAll (root : node) (kvs : list (list byte * list byte)) : result node :=
  match kvs with
  | [] => Ok root
  | (k, v) :: kvs' => r <- Insert root k v ;; insertAll r kvs'
  end.

Fixpoint insertOrderedAll (st : node * option (list byte))
    (kvs : list (list byte * list byte)) : result (node * option (list byte)) :=
  match kvs with
  | [] => Ok st
  | (k, v) :: kvs' => st' <- InsertOrdered st k v ;; insertOrderedAll st' kvs'
  end.

(** The value the last insertion of [key] in [kvs] stored. *)
Definition lastValue (kvs : list (list byte * list byte)) (key : list byte)
    : result (list byte) :=
  fold_left (fun r '(k, v) => if decide (k = key) then Ok v else r) kvs
    (Err ErrValueNotPresent).

Fixpoint increasing (ks : list (list byte)) : bool :=
  match ks with
  | a :: ((b :: _) as ks') => keyLt a b && increasing ks'
  | _ => true
  end.

End Model.

End Tree.

(** ** Reading the encoder's output *)

Module RLPSpec.
Import RLP.

(** The kind [readKind] reports for an encoded item, and its content. *)
Definition kindOf (it : item) : Kind :=
  match it with
  | RStr [b] => if bval b <? 128 then Byte else String
  | RStr _ => String
  | RList _ => List
  end.

Definition content (it : item) : list byte :=
  match it with
  | RStr s => s
  | RList l => payload l
  end.

End RLPSpec.

(** ** The shapes [ParseNode] distinguishes *)

Module EncodingSpec.
Import RLP Encoding.

Definition is_err {A} (r : result A) : Prop := exists e, r = Err e.

(** What ParseNode returns on the encoding of [it], by its shape. *)
Definition shapeSpec (it : item) (tc : TreeConfig) (r : result VerkleNode) : Prop :=
  match it with
  | RList [RStr h] => r = Ok (HashedNode (BytesToHash h))
  | RList [RStr k; RStr v] =>
      if (length k =? 32)%nat then r = Ok (LeafNode k v) else is_err r
  | RList [RStr b; RList cs] =>
      if (length b =? 128)%nat then r = createInternalNode b (payload cs) tc
      else is_err r
  | _ => is_err r
  end.

(** The node a child of an internal-node encoding stands for, [None] when
    its slot stays empty. *)
Definition childOf (it : item) : option VerkleNode :=
  match it with
  | RList [RStr h] => Some (HashedNode (BytesToHash h))
  | RList [RStr k; RStr v] => Some (LeafNode k v)
  | _ => None
  end.

(** The children the loop of [createInternalNode] accepts: a list of one
    string (hashed), of two strings (leaf), or of any other count than one
    or two (skipped).  A child of any other shape makes it fail. *)
Definition childOk (it : item) : bool :=
  match it with
  | RList [RStr _] | RList [RStr _; RStr _] => true
  | RList l => negb (length l =? 1)%nat && negb (length l =? 2)%nat
  | RStr _ => false
  end.

(** The shapes of the nodes [ParseNode] returns: a hashed node carries a
    32-byte hash, a top-level leaf a 32-byte key, and an internal node has
    depth 0, [nodeChildren] slots, and only hashed nodes (with 32-byte
    hashes) and leaves (with keys of any length) as children. *)
Definition childShape (c : VerkleNode) : Prop :=
  match c with
  | HashedNode h => length h = 32%nat
  | LeafNode _ _ => True
  | InternalNode _ _ => False
  end.

Definition parsedShape (tc : TreeConfig) (n : VerkleNode) : Prop :=
  match n with
  | HashedNode h => length h = 32%nat
  | LeafNode k _ => length k = 32%nat
  | InternalNode d ch =>
      d = 0%nat /\ length ch = nodeChildren tc /\
      forall j c, ch !! j = Some (Some c) -> childShape c
  end.

(** The number of 1 bits among the [k] low bits of [n]. *)
Fixpoint bitsSet (k : nat) (n : N) : nat :=
  match k with
  | O => O
  | S k' => (N.to_nat (n mod 2) + bitsSet k' (n / 2))%nat
  end.

(** The number of set bits of a bitlist. *)
Definition setBitCount (bl : list byte) : nat :=
  sum_list_with (fun b => bitsSet 8 (bval b)) bl.

End EncodingSpec.

(** ** Test vectors of tree_test.go *)

Module Vectors.
Import RLP Encoding.

(** [New()] builds width-10 trees. *)
Definition tc10 : TreeConfig := {| nodeWidth := 10 |}.

(** [testValue = []byte("hello")]. *)
Definition testValue : list byte := [x68; x65; x6c; x6c; x6f].

Definition zeroKeyTest : list byte := repeat x00 32.
Definition oneKeyTest : list byte := repeat x00 31 ++ [x01].
Definition fourtyKeyTest : list byte := x40 :: repeat x00 31.
Definition ffx32KeyTest : list byte := repeat xff 32.

(** A 128-byte bitlist with the bits of [bytes0] in its first bytes. *)
Definition bitlist128 (bytes0 : list byte) : list byte :=
  bytes0 ++ repeat x00 (128 - length bytes0).

(** Internal nodes of width 10: slot 0 holding the leaf
    [zeroKeyTest -> testValue], and slot 0 holding an internal node of depth
    1 whose slot 0 holds that leaf. *)
Definition leafSlots : list (option VerkleNode) :=
  <[0%nat := Some (LeafNode zeroKeyTest testValue)]> (repeat None 1024).

Definition nestedSlots : list (option VerkleNode) :=
  <[0%nat := Some (InternalNode 1 leafSlots)]> (repeat None 1024).

End Vectors.

(** ** The keys of BenchmarkCommitFullNode (tree_test.go) *)

Module Bench.

(** [binary.BigEndian.PutUint16(b, v)]: [b[0] = byte(v >> 8)],
    [b[1] = byte(v)]. *)
Definition PutUint16 (v : Z) : list byte :=
  [byte_of (Z.to_N (Z.land (Z.shiftr v 8) 255)); byte_of (Z.to_N (Z.land v 255))].

(** [uint16(i) << 6]: both the conversion and the shift wrap at 16 bits. *)
Definition shl6_u16 (i : nat) : Z :=
  Z.land (Z.shiftl (Z.land (Z.of_nat i) 0xffff) 6) 0xffff.

(** [key := make([]byte, 32)]; [binary.BigEndian.PutUint16(key[:2], uint16(i)<<6)]. *)
Definition fullNodeKey (i : nat) : list byte :=
  PutUint16 (shl6_u16 i) ++ repeat x00 30.

End Bench.

(** ** Invariants of the tree

    [wf P d n]: [n] is an internal node of depth [d] whose keys all start
    with the [d*w]-bit prefix [P], as [Insert] builds them: [NodeChildren]
    slots, the leaf in slot [j] has a 32-byte key with [(d+1)*w]-bit
    prefix [P * 2^w + j], internal children have depth [d+1], and there are
    no hashed nodes.

    [sim B P d u o]: the node [u] built by [InsertOrdered] stands for the
    node [o] built by [Insert]: they have the same shape, except that a
    subtree of [o] may be replaced in [u] by a hashed node carrying its hash,
    provided every key of that subtree is below the bound key [B] (its
    prefix is below that of [B]). *)

Module TreeSpec.
Import Tree.

Section Spec.

Context (w : nat) {Fr G1 : Type}.
Context (zero : Fr) (commit : list Fr -> G1) (hashG1 : G1 -> Fr)
        (leafHash : list byte -> list byte -> Fr).

Inductive wf : Z -> nat -> @node Fr -> Prop :=
| wf_Internal (P : Z) (d : nat) (ch : list (option node)) :
    length ch = NodeChildren w -> (d <= Depth w)%nat ->
    (forall j k v, ch !! j = Some (Some (Leaf k v)) ->
       length k = 32%nat /\ prefix w (S d) k = (P * 2 ^ Z.of_nat w + Z.of_nat j)%Z) ->
    (forall j h, ch !! j <> Some (Some (Hashed h))) ->
    (forall j d' ch', ch !! j = Some (Some (Internal d' ch')) ->
       d' = S d /\ wf (P * 2 ^ Z.of_nat w + Z.of_nat j)%Z (S d) (Internal d' ch')) ->
    wf P d (Internal d ch).

Inductive sim (B : list byte) : Z -> nat -> @node Fr -> @node Fr -> Prop :=
| sim_Hashed (Q : Z) (d : nat) (h : Fr) (o : node) :
    h = Hash zero commit hashG1 leafHash o -> (Q < prefix w d B)%Z ->
    sim B Q d (Hashed h) o
| sim_Leaf (Q : Z) (d : nat) (k v : list byte) :
    sim B Q d (Leaf k v) (Leaf k v)
| sim_Internal (Q : Z) (d : nat) (chu cho : list (option node)) :
    length chu = length cho ->
    (forall j, chu !! j = Some None <-> cho !! j = Some None) ->
    (forall j cu co, chu !! j = Some (Some cu) -> cho !! j = Some (Some co) ->
       sim B (Q * 2 ^ Z.of_nat w + Z.of_nat j)%Z (S d) cu co) ->
    sim B Q d (Internal d chu) (Internal d cho).

End Spec.

End TreeSpec.

(** ** Hash to field

    Modelled from the spec: [hashToFr] and the curve library's [FrFrom32]
    are not among the sources.  Section 4.D reduces a 32-byte digest modulo
    the scalar field of BLS12-381; the curve library reads the 32 bytes of
    an [Fr] least significant byte first, and [FrFrom32] accepts only
    canonical encodings (values below the modulus). *)

Module Field.

Definition frModulus : Z :=
  0x73eda753299d7d483339d80809a1d80553bda402fffe5bfeffffffff00000001%Z.

(** The little-endian value of a byte string. *)
Fixpoint le_Z (bs : list byte) : Z :=
  match bs with
  | [] => 0%Z
  | b :: bs' => (Z.of_N (bval b) + 256 * le_Z bs')%Z
  end.

Definition hashToFr (h : list byte) : Z := (le_Z h mod frModulus)%Z.

Definition FrFrom32 (h : list byte) : option Z :=
  if (length h =? 32)%nat && (le_Z h <? frModulus)%Z then Some (le_Z h) else None.

(** [common.HexToHash("c79e...e000")] of TestHashToFrTrailingZeroBytes. *)
Definition trailingZeroHash : list byte :=
  [xc7; x9e; x57; x6e; x0f; x53; x4a; x5b; xbe; xd6; x6b; x32; xe5; x02; x2a; x9d;
   x62; x4b; x44; x15; x77; x9b; x36; x9a; x62; xb2; xe7; xa6; xc3; xd8; xe0; x00].

End Field.

(** * Proofs *)

Import RLP RLPSpec Encoding EncodingSpec Vectors Bench Field Tree TreeSpec.

(** ** Bytes and big-endian numbers *)

Lemma bval_bound (b : byte) : bval b < 256.
Proof. unfold bval. pose proof (Byte.to_N_bounded b). lia. Qed.

Lemma bval_byte_of (n : N) : n < 256 -> bval (byte_of n) = n.
Proof.
  intros Hn. unfold byte_of, bval.
  destruct (Byte.of_N n) as [b|] eqn:E.
  - now apply Byte.to_of_N.
  - apply Byte.of_N_None_iff in E. lia.
Qed.

Lemma be_N_fold (l : list byte) (acc : N) :
  fold_left (fun acc b => acc * 256 + bval b) l acc
  = acc * 256 ^ N.of_nat (length l) + be_N l.
Proof.
  revert acc. induction l as [|b l IH]; intros acc; simpl.
  - unfold be_N. simpl. lia.
  - unfold be_N. simpl. rewrite !IH.
    rewrite Nat2N.inj_succ, N.pow_succ_r'. lia.
Qed.

Lemma be_N_cons (b : byte) (l : list byte) :
  be_N (b :: l) = bval b * 256 ^ N.of_nat (length l) + be_N l.
Proof. unfold be_N at 1. simpl. rewrite be_N_fold. lia. Qed.

Lemma be_N_bound (l : list byte) : be_N l < 256 ^ N.of_nat (length l).
Proof.
  induction l as [|b l IH].
  - unfold be_N. simpl. lia.
  - rewrite be_N_cons. simpl length. rewrite Nat2N.inj_succ, N.pow_succ_r'.
    pose proof (bval_bound b). nia.
Qed.

Lemma length_be_bytes (k : nat) (n : N) : length (be_bytes k n) = k.
Proof. induction k; simpl; congruence. Qed.

Lemma be_N_be_bytes (k : nat) (n : N) : be_N (be_bytes k n) = n mod 256 ^ N.of_nat k.
Proof.
  induction k as [|k IH]; simpl be_bytes.
  - unfold be_N. simpl. now rewrite N.mod_1_r.
  - rewrite be_N_cons, IH, length_be_bytes.
    rewrite bval_byte_of by (apply N.mod_lt; lia).
    rewrite Nat2N.inj_succ, N.pow_succ_r', (N.mul_comm 256).
    rewrite N.Div0.mod_mul_r. lia.
Qed.

Lemma len_bytes_spec (n : N) :
  0 < n -> n < 2 ^ 64 ->
  (1 <= len_bytes n <= 8)%nat /\
  256 ^ N.of_nat (len_bytes n - 1) <= n < 256 ^ N.of_nat (len_bytes n).
Proof.
  intros H0 H64. unfold len_bytes.
  pose proof (N.log2_spec n H0) as [Hlo Hhi].
  assert (Hl : N.log2 n < 64) by (apply N.log2_lt_pow2; lia).
  set (q := N.log2 n / 8).
  assert (Hd : 8 * q <= N.log2 n < 8 * (q + 1)).
  { unfold q. pose proof (N.Div0.div_mod (N.log2 n) 8).
    pose proof (N.mod_lt (N.log2 n) 8 ltac:(lia)).
    remember (N.log2 n / 8) as a. remember (N.log2 n mod 8) as m. lia. }
  assert (Hq : q <= 7) by lia.
  assert (E1 : N.of_nat (N.to_nat (q + 1) - 1) = q) by lia.
  assert (E2 : N.of_nat (N.to_nat (q + 1)) = q + 1) by lia.
  rewrite E1, E2.
  assert (P : forall e, 256 ^ e = 2 ^ (8 * e)).
  { intros e. rewrite N.pow_mul_r. reflexivity. }
  rewrite !P. split; [lia|]. split.
  - eapply N.le_trans; [|exact Hlo]. apply N.pow_le_mono_r; lia.
  - eapply N.lt_le_trans; [exact Hhi|]. apply N.pow_le_mono_r; lia.
Qed.

Lemma firstn_app_exact {A} (l1 l2 : list A) (k : nat) :
  length l1 = k -> firstn k (l1 ++ l2) = l1.
Proof. intros <-. rewrite firstn_app, Nat.sub_diag, firstn_all. simpl. apply app_nil_r. Qed.

Lemma skipn_app_exact {A} (l1 l2 : list A) (k : nat) :
  length l1 = k -> skipn k (l1 ++ l2) = l2.
Proof. intros <-. rewrite skipn_app, Nat.sub_diag, skipn_all. reflexivity. Qed.

(** ** Decoding the canonical encoder *)

Lemma readSize_be_bytes (len : N) (t : list byte) :
  56 <= len -> len < 2 ^ 64 ->
  readSize (be_bytes (len_bytes len) len ++ t) (N.of_nat (len_bytes len)) = Ok len.
Proof.
  intros H56 H64.
  destruct (len_bytes_spec len ltac:(lia) H64) as [Hk [Hlo Hhi]].
  unfold readSize. rewrite length_app, length_be_bytes.
  replace (N.of_nat (len_bytes len + length t) <? N.of_nat (len_bytes len))
    with false by (symmetry; apply N.ltb_ge; lia).
  rewrite Nat2N.id, firstn_app_exact by apply length_be_bytes.
  rewrite be_N_be_bytes, N.mod_small by lia.
  destruct (len_bytes len) as [|k] eqn:Ek; [lia|].
  cbn [be_bytes app].
  rewrite bval_byte_of by (apply N.mod_lt; lia).
  replace (N.of_nat (S k - 1)) with (N.of_nat k) in Hlo by (f_equal; lia).
  assert (Hq : 1 <= len / 256 ^ N.of_nat k < 256).
  { split.
    - apply N.div_le_lower_bound; [apply N.pow_nonzero; lia|]. lia.
    - apply N.Div0.div_lt_upper_bound.
      rewrite Nat2N.inj_succ, N.pow_succ_r' in Hhi. lia. }
  rewrite N.mod_small by lia.
  destruct (len <? 56) eqn:E1; [apply N.ltb_lt in E1; lia|].
  destruct (len / 256 ^ N.of_nat k =? 0) eqn:E2; [apply N.eqb_eq in E2; lia|].
  reflexivity.
Qed.

(** Case analysis on the [N] comparisons of a goal, closing the
    impossible branches by arithmetic. *)
Ltac split_N_tests :=
  repeat (cbn [bind fst snd andb orb negb length];
    match goal with
    | |- context [?a <? ?b] =>
        let E := fresh "E" in
        destruct (a <? b) eqn:E;
        [apply N.ltb_lt in E | apply N.ltb_ge in E]; try lia
    | |- context [?a =? ?b] =>
        let E := fresh "E" in
        destruct (a =? b) eqn:E;
        [apply N.eqb_eq in E | apply N.eqb_neq in E]; try lia
    end).

Lemma readKind_string_header (len : N) (t : list byte) :
  len < 2 ^ 64 -> len <= N.of_nat (length t) ->
  (len = 1 -> forall c t', t = c :: t' -> 128 <= bval c) ->
  readKind (header 128 183 len ++ t)
  = Ok (String, N.of_nat (length (header 128 183 len)), len).
Proof.
  intros H64 Hlen Hcanon. unfold header.
  destruct (len <? 56) eqn:Es.
  - apply N.ltb_lt in Es. cbn [app readKind]. rewrite bval_byte_of by lia.
    destruct t as [|c t']; simpl in Hlen.
    + split_N_tests. replace len with 0 by lia. reflexivity.
    + assert (len = 1 -> 128 <= bval c) by (intros; eapply Hcanon; eauto).
      simpl length. split_N_tests; repeat f_equal; lia.
  - apply N.ltb_ge in Es.
    destruct (len_bytes_spec len ltac:(lia) H64) as [Hk _].
    cbn [app readKind]. rewrite bval_byte_of by lia.
    split_N_tests.
    replace (183 + N.of_nat (len_bytes len) - 183) with (N.of_nat (len_bytes len))
      by lia.
    rewrite readSize_be_bytes by lia. cbn [bind].
    rewrite ?length_cons, ?length_app, ?length_be_bytes. split_N_tests.
    cbn [length]. rewrite ?length_be_bytes. repeat f_equal. lia.
Qed.

Lemma readKind_list_header (len : N) (t : list byte) :
  len < 2 ^ 64 -> len <= N.of_nat (length t) ->
  readKind (header 192 247 len ++ t)
  = Ok (List, N.of_nat (length (header 192 247 len)), len).
Proof.
  intros H64 Hlen. unfold header.
  destruct (len <? 56) eqn:Es.
  - apply N.ltb_lt in Es. cbn [app readKind]. rewrite bval_byte_of by lia.
    split_N_tests; repeat f_equal; lia.
  - apply N.ltb_ge in Es.
    destruct (len_bytes_spec len ltac:(lia) H64) as [Hk _].
    cbn [app readKind]. rewrite bval_byte_of by lia.
    split_N_tests.
    replace (247 + N.of_nat (len_bytes len) - 247) with (N.of_nat (len_bytes len))
      by lia.
    rewrite readSize_be_bytes by lia. cbn [bind].
    rewrite ?length_cons, ?length_app, ?length_be_bytes. split_N_tests.
    cbn [length]. rewrite ?length_be_bytes. repeat f_equal. lia.
Qed.

Lemma readKind_encode (it : item) (t : list byte) :
  item_ok it = true ->
  exists hd, encode it = hd ++ content it /\
    readKind (encode it ++ t)
    = Ok (kindOf it, N.of_nat (length hd), N.of_nat (length (content it))).
Proof.
  intros Hok. destruct it as [s|l].
  - simpl in Hok. apply N.ltb_lt in Hok.
    destruct s as [|b [|b2 s']].
    + exists (header 128 183 0). split; [reflexivity|].
      cbn [encode content kindOf length]. rewrite app_nil_r.
      rewrite readKind_string_header; [reflexivity|lia|lia|lia].
    + cbn [encode content kindOf].
      destruct (bval b <? 128) eqn:Eb.
      * exists []. split; [reflexivity|]. cbn. rewrite Eb. simpl.
        split_N_tests. reflexivity.
      * apply N.ltb_ge in Eb. exists (header 128 183 1). split; [reflexivity|].
        rewrite <- app_assoc.
        rewrite readKind_string_header; [reflexivity|lia|simpl; lia|].
        intros _ c t' [= <- _]. exact Eb.
    + exists (header 128 183 (N.of_nat (length (b :: b2 :: s')))).
      split; [reflexivity|]. cbn [encode content kindOf].
      rewrite <- app_assoc.
      rewrite readKind_string_header; [reflexivity|lia|rewrite length_app; lia|].
      simpl. lia.
  - simpl in Hok. apply andb_prop in Hok as [_ Hok]. apply N.ltb_lt in Hok.
    exists (header 192 247 (N.of_nat (length (payload l)))).
    split; [reflexivity|]. cbn [encode content kindOf].
    rewrite <- app_assoc. fold (payload l).
    rewrite readKind_list_header; [reflexivity|exact Hok|rewrite length_app; lia].
Qed.

Lemma Split_encode (it : item) (t : list byte) :
  item_ok it = true -> Split (encode it ++ t) = Ok (kindOf it, content it, t).
Proof.
  intros Hok. destruct (readKind_encode it t Hok) as (hd & He & Hr).
  unfold Split. rewrite Hr. cbn [bind]. rewrite He.
  replace (N.to_nat (N.of_nat (length hd) + N.of_nat (length (content it))))
    with (length (hd ++ content it)) by (rewrite length_app; lia).
  rewrite (skipn_app_exact (hd ++ content it) t (length (hd ++ content it)))
    by reflexivity.
  rewrite <- app_assoc, !Nat2N.id, (skipn_app_exact hd _ (length hd)) by reflexivity.
  rewrite firstn_app_exact by reflexivity. reflexivity.
Qed.

Lemma SplitString_str (s t : list byte) :
  item_ok (RStr s) = true -> SplitString (encode (RStr s) ++ t) = Ok (s, t).
Proof.
  intros Hok. unfold SplitString. rewrite Split_encode by exact Hok. cbn.
  destruct s as [|b [|]]; cbn; try reflexivity.
  destruct (bval b <? 128); reflexivity.
Qed.

Lemma SplitString_list (l : list item) (t : list byte) :
  item_ok (RList l) = true -> SplitString (encode (RList l) ++ t) = Err ErrExpectedString.
Proof. intros Hok. unfold SplitString. now rewrite Split_encode by exact Hok. Qed.

Lemma SplitList_list (l : list item) (t : list byte) :
  item_ok (RList l) = true -> SplitList (encode (RList l) ++ t) = Ok (payload l, t).
Proof. intros Hok. unfold SplitList. now rewrite Split_encode by exact Hok. Qed.

Lemma SplitList_str (s t : list byte) :
  item_ok (RStr s) = true -> SplitList (encode (RStr s) ++ t) = Err ErrExpectedList.
Proof.
  intros Hok. unfold SplitList. rewrite Split_encode by exact Hok. cbn.
  destruct s as [|b [|]]; cbn; try reflexivity.
  destruct (bval b <? 128); reflexivity.
Qed.

Lemma encode_nonempty (it : item) : (1 <= length (encode it))%nat.
Proof.
  destruct it as [[|b [|b2 s]]|l]; cbn [encode]; unfold header;
    repeat (destruct (_ <? _)); simpl; try rewrite length_app; simpl; lia.
Qed.

Lemma countValues_payload (l : list item) (fuel : nat) :
  forallb item_ok l = true -> (length (payload l) <= fuel)%nat ->
  countValues fuel (payload l) = Ok (length l).
Proof.
  revert fuel. induction l as [|x l IH]; intros fuel Hok Hf; [destruct fuel; reflexivity|].
  simpl in Hok. apply andb_prop in Hok as [Hx Hl].
  unfold payload in *. cbn [map concat] in *. fold (payload l) in *.
  destruct (readKind_encode x (payload l) Hx) as (hd & He & Hr).
  pose proof (encode_nonempty x) as Hne.
  rewrite length_app in Hf.
  destruct fuel as [|fuel']; [lia|].
  assert (Hunf : countValues (S fuel') (encode x ++ payload l)
    = bind (readKind (encode x ++ payload l)) (fun '(_, ts, cs) =>
        c <- countValues fuel' (skipn (N.to_nat (ts + cs)) (encode x ++ payload l)) ;;
        Ok (S c))).
  { destruct (encode x ++ payload l) as [|b rest] eqn:Ecat; [|reflexivity].
    apply (f_equal (@length byte)) in Ecat. rewrite length_app in Ecat.
    simpl in Ecat. lia. }
  rewrite Hunf, Hr. cbn [bind].
  replace (N.to_nat (N.of_nat (length hd) + N.of_nat (length (content x))))
    with (length (encode x)) by (rewrite He, length_app; lia).
  rewrite skipn_app_exact by reflexivity.
  rewrite IH by (auto; lia). reflexivity.
Qed.

Lemma CountValues_payload (l : list item) :
  forallb item_ok l = true -> CountValues (payload l) = Ok (length l).
Proof. intros Hok. apply countValues_payload; auto. Qed.

(** ** The node decoder on encoded items *)

Ltac by_err := cbn; try unfold is_err; eexists; reflexivity.

Lemma readKind_below_list (b : byte) (rest : list byte) k ts cs :
  bval b < 192 -> readKind (b :: rest) = Ok (k, ts, cs) -> k <> List.
Proof.
  intros Hb H. unfold readKind in H.
  destruct (bval b <? 128) eqn:E1; [cbn in H; destruct (_ <? _) in H; congruence|].
  destruct (bval b <? 184) eqn:E2.
  { destruct (_ && _) in H; cbn in H; [congruence|].
    destruct (_ <? _) in H; congruence. }
  destruct (bval b <? 192) eqn:E3; [|apply N.ltb_ge in E3; lia].
  destruct (readSize rest (bval b - 183)); cbn in H; [|congruence].
  destruct (_ <? _) in H; congruence.
Qed.

Lemma SplitList_nonlist (b : byte) (rest : list byte) :
  bval b < 192 -> is_err (SplitList (b :: rest)).
Proof.
  intros Hb. unfold SplitList, Split.
  destruct (readKind (b :: rest)) as [[[k ts] cs]|e] eqn:E; cbn; [|eexists; reflexivity].
  apply readKind_below_list in E; [|exact Hb].
  destruct k; cbn; [eexists; reflexivity|eexists; reflexivity|congruence].
Qed.

Lemma parseHashedNode_enc (x : item) (t : list byte) :
  item_ok x = true ->
  parseHashedNode (encode x ++ t)
  = match x with
    | RStr h => Ok (HashedNode (BytesToHash h))
    | RList _ => Err ErrExpectedString
    end.
Proof.
  intros Hx. unfold parseHashedNode. destruct x as [h|l].
  - now rewrite SplitString_str.
  - now rewrite SplitString_list.
Qed.

Lemma parseLeafNode_enc (x y : item) (t : list byte) :
  item_ok x = true -> item_ok y = true ->
  parseLeafNode (encode x ++ encode y ++ t)
  = match x, y with
    | RStr k, RStr v => Ok (LeafNode k v)
    | _, _ => Err ErrExpectedString
    end.
Proof.
  intros Hx Hy. unfold parseLeafNode. destruct x as [k|l].
  - rewrite SplitString_str by exact Hx. cbn [bind].
    destruct y as [v|l'].
    + now rewrite SplitString_str.
    + now rewrite SplitString_list.
  - now rewrite SplitString_list.
Qed.

Lemma ParseNode_encode (it : item) (tail : list byte) (tc : TreeConfig) :
  item_ok it = true -> shapeSpec it tc (ParseNode (encode it ++ tail) tc).
Proof.
  intros Hok. unfold ParseNode. destruct it as [s|l].
  - rewrite SplitList_str by exact Hok. by_err.
  - rewrite SplitList_list by exact Hok. cbn [bind].
    pose proof Hok as Hok'. simpl in Hok'. apply andb_prop in Hok' as [Hl _].
    rewrite CountValues_payload by exact Hl. cbn [bind].
    destruct l as [|x [|y [|z l]]]; cbn [length Nat.eqb negb]; try (by_err; fail).
    + simpl in Hl. rewrite andb_true_r in Hl.
      unfold payload. cbn [map concat]. rewrite parseHashedNode_enc by exact Hl.
      destruct x as [h|l]; [reflexivity|by_err].
    + simpl in Hl. apply andb_prop in Hl as [Hx Hl]. rewrite andb_true_r in Hl.
      unfold payload. cbn [map concat]. rewrite Split_encode by exact Hx.
      cbn [bind].
      destruct x as [s|lx]; [|by_err].
      assert (Hkind : kindOf (RStr s) = String \/ (length s = 1%nat /\ kindOf (RStr s) = Byte)).
      { destruct s as [|b [|b2 s]]; cbn; auto. destruct (bval b <? 128); auto. }
      destruct Hkind as [Hk|[Hlen Hk]]; rewrite Hk; cbn [kind_eqb negb content].
      * destruct (length s =? 32)%nat eqn:E32.
        -- destruct y as [v|ly].
           ++ rewrite SplitString_str by exact Hl. cbn. rewrite E32. reflexivity.
           ++ rewrite SplitString_list by exact Hl. cbn. apply Nat.eqb_eq in E32. rewrite E32. by_err.
        -- destruct (length s =? 128)%nat eqn:E128.
           ++ destruct y as [v|ly].
              ** rewrite SplitList_str by exact Hl. cbn. rewrite E32. by_err.
              ** rewrite SplitList_list by exact Hl. cbn. rewrite ?E32, ?E128.
                 reflexivity.
           ++ destruct y as [v|ly]; cbn; rewrite ?E32, ?E128; by_err.
      * destruct y; cbn; rewrite Hlen; by_err.
    + destruct x as [?|?]; [destruct y as [?|?]|]; by_err.
Qed.

Lemma ParseNode_nonlist (b : byte) (rest : list byte) (tc : TreeConfig) :
  bval b < 192 -> is_err (ParseNode (b :: rest) tc).
Proof.
  intros Hb. destruct (SplitList_nonlist b rest Hb) as [e He].
  unfold ParseNode. rewrite He. by_err.
Qed.

Lemma ParseNode_empty (tc : TreeConfig) : is_err (ParseNode [] tc).
Proof. by_err. Qed.

(** ** C1: the shapes [ParseNode] accepts *)

(** C1 (counterexample): the input [0xc1 0xc0] is a one-element list (its
    single element is the empty list), yet [ParseNode] returns an error,
    not a hashed node: [parseHashedNode] requires the element to be a
    string. *)
Lemma ParseNode_one_element_list_of_list :
  encode (RList [RList []]) = [xc1; xc0] /\
  CountValues [xc0] = Ok 1%nat /\
  ParseNode [xc1; xc0] tc10 = Err ErrExpectedString.
Proof. repeat split; vm_compute; reflexivity. Qed.

(** C1 (amended): on an input that starts with the encoding of a value
    [it] (any bytes may follow), [ParseNode] returns a hashed node for a
    one-element list holding a string, a leaf for a two-element list of a
    32-byte string and a string, the result of [createInternalNode] for a
    two-element list of a 128-byte string and a list, and an error for
    every other shape; an empty input or one whose first byte is not a
    list header (below 0xC0) is an error. *)
Theorem ParseNode_shapes :
  (forall (it : item) (tail : list byte) (tc : TreeConfig),
     item_ok it = true -> shapeSpec it tc (ParseNode (encode it ++ tail) tc)) /\
  (forall (b : byte) (rest : list byte) (tc : TreeConfig),
     bval b < 192 -> is_err (ParseNode (b :: rest) tc)) /\
  (forall tc : TreeConfig, is_err (ParseNode [] tc)).
Proof.
  split; [|split].
  - intros it tail tc Hok. now apply ParseNode_encode.
  - intros b rest tc Hb. now apply ParseNode_nonlist.
  - intros tc. apply ParseNode_empty.
Qed.

Lemma ParseNode_shapes_witness :
  item_ok (RList [RStr zeroKeyTest; RStr testValue]) = true /\
  shapeSpec (RList [RStr zeroKeyTest; RStr testValue]) tc10
    (ParseNode (encode (RList [RStr zeroKeyTest; RStr testValue]) ++ []) tc10) /\
  bval xbf < 192 /\ is_err (ParseNode [xbf] tc10).
Proof.
  split; [vm_compute; reflexivity|].
  split; [apply (proj1 ParseNode_shapes); vm_compute; reflexivity|].
  split; [vm_compute; reflexivity|].
  apply (proj1 (proj2 ParseNode_shapes)). vm_compute. reflexivity.
Defined.

(** ** indicesFromBitlist *)

Lemma elem_of_flat_map_bits (t : nat -> bool) (c a n s : nat) :
  s ∈ flat_map (fun j => if t j then [c + j]%nat else []) (seq a n) <->
  exists j, (a <= j < a + n)%nat /\ t j = true /\ s = (c + j)%nat.
Proof.
  rewrite list_elem_of_In, in_flat_map. split.
  - intros (j & Hj & Hs). apply in_seq in Hj.
    destruct (t j) eqn:E; [|destruct Hs].
    destruct Hs as [<-|[]]. exists j. auto with lia.
  - intros (j & Hj & Ht & ->). exists j. split; [apply in_seq; lia|].
    rewrite Ht. now left.
Qed.

Lemma sorted_flat_map_bits (t : nat -> bool) (c a n : nat) :
  StronglySorted lt (flat_map (fun j => if t j then [c + j]%nat else []) (seq a n)).
Proof.
  revert a. induction n as [|n IH]; intros a; [constructor|].
  cbn [seq flat_map]. apply StronglySorted_app_2; [|destruct (t a); repeat constructor|apply IH].
  intros x1 x2 H1 H2.
  destruct (t a); [|inversion H1].
  apply list_elem_of_singleton in H1 as ->.
  apply elem_of_flat_map_bits in H2 as (j & Hj & _ & ->). lia.
Qed.

Lemma elem_of_byteIndices (i : nat) (b : byte) (s : nat) :
  s ∈ byteIndices i b <->
  exists j, (j < 8)%nat /\ N.testbit (bval b) (N.of_nat j) = true /\ s = (i * 8 + j)%nat.
Proof.
  unfold byteIndices. destruct (bval b =? 0) eqn:E.
  - apply N.eqb_eq in E. rewrite E. split.
    + intros H. inversion H.
    + intros (j & _ & Hb & _). rewrite N.bits_0 in Hb. discriminate.
  - rewrite (elem_of_flat_map_bits (fun j => N.testbit (bval b) (N.of_nat j))).
    split; intros (j & ? & ? & ?); exists j; auto with lia.
Qed.

Lemma sorted_byteIndices (i : nat) (b : byte) : StronglySorted lt (byteIndices i b).
Proof.
  unfold byteIndices. destruct (bval b =? 0); [constructor|].
  apply (sorted_flat_map_bits (fun j => N.testbit (bval b) (N.of_nat j))).
Qed.

Lemma elem_of_indicesFrom (i : nat) (bl : list byte) (s : nat) :
  s ∈ indicesFrom i bl <->
  exists k b j, bl !! k = Some b /\ (j < 8)%nat /\
    N.testbit (bval b) (N.of_nat j) = true /\ s = ((i + k) * 8 + j)%nat.
Proof.
  revert i. induction bl as [|b bl IH]; intros i; cbn [indicesFrom].
  - split; [intros H; inversion H|]. intros (k & b & j & Hk & _). inversion Hk.
  - rewrite elem_of_app, elem_of_byteIndices, IH. split.
    + intros [(j & Hj & Hb & ->)|(k & b' & j & Hk & Hj & Hb & ->)].
      * exists 0%nat, b, j. rewrite Nat.add_0_r. auto.
      * exists (S k), b', j. split; [exact Hk|]. split; [exact Hj|].
        split; [exact Hb|]. lia.
    + intros (k & b' & j & Hk & Hj & Hb & ->). destruct k as [|k].
      * left. injection Hk as <-. exists j. rewrite Nat.add_0_r. auto.
      * right. exists k, b', j. split; [exact Hk|]. split; [exact Hj|].
        split; [exact Hb|]. lia.
Qed.

Lemma bound_indicesFrom (i : nat) (bl : list byte) (s : nat) :
  s ∈ indicesFrom i bl -> (i * 8 <= s < (i + length bl) * 8)%nat.
Proof.
  intros H. apply elem_of_indicesFrom in H as (k & b & j & Hk & Hj & _ & ->).
  apply lookup_lt_Some in Hk. lia.
Qed.

Lemma sorted_indicesFrom (i : nat) (bl : list byte) :
  StronglySorted lt (indicesFrom i bl).
Proof.
  revert i. induction bl as [|b bl IH]; intros i; cbn [indicesFrom]; [constructor|].
  apply StronglySorted_app_2; [|apply sorted_byteIndices|apply IH].
  intros x1 x2 H1 H2. apply elem_of_byteIndices in H1 as (j & Hj & _ & ->).
  apply bound_indicesFrom in H2. lia.
Qed.

(** ** The loop of createInternalNode *)

Lemma fillChildren_step (c : item) (idx : list nat) (s : nat) (r : list byte)
    (ch : list (option VerkleNode)) :
  item_ok c = true -> childOk c = true -> (s < length ch)%nat ->
  fillChildren (s :: idx) (encode c ++ r) ch
  = fillChildren idx r (match childOf c with
                        | Some n => <[s := Some n]> ch
                        | None => ch
                        end).
Proof.
  intros Hok Hc Hs. destruct c as [str|l]; [discriminate|].
  cbn [fillChildren]. rewrite SplitList_list by exact Hok. cbn [bind].
  assert (Hl : forallb item_ok l = true)
    by (cbn in Hok; apply andb_prop in Hok; tauto).
  rewrite CountValues_payload by exact Hl. cbn [bind].
  unfold setChild. rewrite (proj2 (Nat.ltb_lt _ _) Hs).
  destruct l as [|x [|y [|z l]]]; cbn [length].
  - reflexivity.
  - change (payload [x]) with (encode x ++ []).
    cbn in Hl. rewrite andb_true_r in Hl.
    rewrite parseHashedNode_enc by exact Hl.
    destruct x; [reflexivity|discriminate].
  - change (payload [x; y]) with (encode x ++ encode y ++ []).
    cbn in Hl. rewrite andb_true_r in Hl. apply andb_prop in Hl as [Hx Hy].
    rewrite parseLeafNode_enc by assumption.
    destruct x as [k|]; [|discriminate]. destruct y; [reflexivity|discriminate].
  - destruct x as [?|?]; [destruct y|]; reflexivity.
Qed.

Lemma fillChildren_spec (idx : list nat) (cs : list item) (rest : list byte)
    (ch : list (option VerkleNode)) :
  NoDup idx -> Forall (fun s => s < length ch)%nat idx ->
  forallb item_ok cs = true -> forallb childOk cs = true ->
  (length idx <= length cs)%nat ->
  exists ch', fillChildren idx (payload cs ++ rest) ch = Ok ch' /\
    length ch' = length ch /\
    (forall s, s ∉ idx -> ch' !! s = ch !! s) /\
    (forall k s it, idx !! k = Some s -> cs !! k = Some it ->
       ch' !! s = match childOf it with
                  | Some n => Some (Some n)
                  | None => ch !! s
                  end).
Proof.
  revert cs ch. induction idx as [|s idx IH]; intros cs ch Hnd Hlt Hok Hc Hlen.
  - exists ch. split; [reflexivity|]. split; [reflexivity|]. split; [reflexivity|].
    intros k s it Hk. inversion Hk.
  - destruct cs as [|c cs]; [cbn in Hlen; lia|].
    cbn [forallb] in Hok, Hc. apply andb_prop in Hok as [Hok1 Hok2].
    apply andb_prop in Hc as [Hc1 Hc2].
    apply NoDup_cons in Hnd as [Hni Hnd]. apply Forall_cons in Hlt as [Hs Hlt].
    change (payload (c :: cs)) with (encode c ++ payload cs).
    rewrite <- app_assoc, fillChildren_step by assumption.
    set (ch1 := match childOf c with Some n => <[s := Some n]> ch | None => ch end).
    assert (Hlen1 : length ch1 = length ch)
      by (unfold ch1; destruct (childOf c); rewrite ?length_insert; reflexivity).
    assert (Hne : forall s', s' <> s -> ch1 !! s' = ch !! s').
    { intros s' Hs'. unfold ch1. destruct (childOf c); [|reflexivity].
      apply list_lookup_insert_ne. congruence. }
    destruct (IH cs ch1) as (ch' & Hf & Hl' & Hout & Hin); try assumption.
    + rewrite Hlen1. exact Hlt.
    + cbn in Hlen. lia.
    + exists ch'. split; [exact Hf|]. split; [congruence|]. split.
      * intros s' Hs'. rewrite Hout by (intros H; apply Hs'; now right).
        apply Hne. intros ->. apply Hs'. now left.
      * intros [|k] s' it Hk Hit.
        -- injection Hk as <-. injection Hit as <-.
           rewrite Hout by exact Hni. unfold ch1.
           destruct (childOf c); [|reflexivity].
           now apply list_lookup_insert_eq.
        -- rewrite (Hin k s' it Hk Hit). destruct (childOf it); [reflexivity|].
           apply Hne. intros ->. apply Hni. eapply list_elem_of_lookup_2. exact Hk.
Qed.

Lemma lookup_repeat_lt {A} (x : A) (n i : nat) :
  (i < n)%nat -> repeat x n !! i = Some x.
Proof.
  revert i. induction n as [|n IH]; intros [|i] Hi; cbn; try lia; auto.
  apply IH. lia.
Qed.

Lemma StronglySorted_lt_NoDup (l : list nat) : StronglySorted lt l -> NoDup l.
Proof.
  induction 1 as [|a l _ IH HF]; constructor; [|exact IH].
  intros Ha. rewrite Forall_forall in HF. specialize (HF a Ha). lia.
Qed.

(** The loop of [createInternalNode] on children of the shapes it accepts
    ([childOk]), as many as there are set bits, with a bitlist covering no
    more than [NodeChildren] slots: the indices are the set bits [8*i + j],
    in strictly increasing order; the [k]-th child goes to the [k]-th
    index, and every other slot stays empty. *)
Lemma createInternalNode_fill (bl : list byte) (cs : list item) (tc : TreeConfig) :
  (8 * length bl <= nodeChildren tc)%nat ->
  forallb item_ok cs = true -> forallb childOk cs = true ->
  length cs = length (indicesFromBitlist bl) ->
  (forall s, s ∈ indicesFromBitlist bl <->
     exists i j b, bl !! i = Some b /\ (j < 8)%nat /\
       N.testbit (bval b) (N.of_nat j) = true /\ s = (8 * i + j)%nat) /\
  StronglySorted lt (indicesFromBitlist bl) /\
  exists ch, createInternalNode bl (payload cs) tc = Ok (InternalNode 0 ch) /\
    length ch = nodeChildren tc /\
    (forall k s it, indicesFromBitlist bl !! k = Some s -> cs !! k = Some it ->
       ch !! s = Some (childOf it)) /\
    (forall s, (s < nodeChildren tc)%nat -> s ∉ indicesFromBitlist bl ->
       ch !! s = Some None).
Proof.
  intros Hbl Hok Hc Hlen.
  assert (Hel : forall s, s ∈ indicesFromBitlist bl <->
     exists i j b, bl !! i = Some b /\ (j < 8)%nat /\
       N.testbit (bval b) (N.of_nat j) = true /\ s = (8 * i + j)%nat).
  { intros s. unfold indicesFromBitlist. rewrite elem_of_indicesFrom.
    split.
    - intros (i & b & j & H1 & H2 & H3 & H4). exists i, j, b.
      repeat split; auto; lia.
    - intros (i & j & b & H1 & H2 & H3 & H4). exists i, b, j.
      repeat split; auto; lia. }
  split; [exact Hel|]. split; [apply sorted_indicesFrom|].
  unfold createInternalNode, newInternalNode.
  destruct (fillChildren_spec (indicesFromBitlist bl) cs []
              (repeat None (nodeChildren tc)))
    as (ch & Hf & Hl & Hout & Hin); auto.
  - apply StronglySorted_lt_NoDup, sorted_indicesFrom.
  - apply Forall_forall. intros s Hs.
    apply bound_indicesFrom in Hs. rewrite repeat_length. lia.
  - lia.
  - rewrite app_nil_r in Hf. rewrite Hf. cbn [bind].
    exists ch. split; [reflexivity|]. rewrite repeat_length in Hl.
    split; [exact Hl|]. split.
    + intros k s it Hk Hit. rewrite (Hin k s it Hk Hit).
      destruct (childOf it); [reflexivity|].
      apply lookup_repeat_lt. apply list_elem_of_lookup_2 in Hk.
      apply bound_indicesFrom in Hk. lia.
    + intros s Hs Hn. rewrite Hout by exact Hn. now apply lookup_repeat_lt.
Qed.

(** ** Children of other element counts; hashed nodes *)

Lemma item_ok_internal (b : list byte) (cs : list item) :
  item_ok (RList [RStr b; RList cs]) = true -> forallb item_ok cs = true.
Proof.
  intros H. cbn [item_ok forallb] in H. repeat rewrite andb_true_iff in H. tauto.
Qed.

Lemma childOf_other_count (l : list item) :
  length l <> 1%nat -> length l <> 2%nat -> childOf (RList l) = None.
Proof.
  intros H1 H2. destruct l as [|x [|y [|z l]]]; cbn in *; try lia; [reflexivity|].
  destruct x; [destruct y|]; reflexivity.
Qed.

(** C9: a child of an internal-node encoding that is a list of neither one
    nor two elements is skipped without an error: [ParseNode] succeeds, the
    slot of that child is left empty, and the loop goes on with the
    remaining children, every other child [it] being stored in its slot as
    [childOf it] (a hashed node or a leaf, or again an empty slot for a
    skipped child). *)
Theorem ParseNode_skips_other_counts (bl : list byte) (cs : list item)
    (tc : TreeConfig) (tail : list byte) (k s : nat) (l : list item) :
  item_ok (RList [RStr bl; RList cs]) = true ->
  length bl = 128%nat -> (8 * 128 <= nodeChildren tc)%nat ->
  forallb childOk cs = true ->
  length cs = length (indicesFromBitlist bl) ->
  indicesFromBitlist bl !! k = Some s -> cs !! k = Some (RList l) ->
  length l <> 1%nat -> length l <> 2%nat ->
  exists ch, ParseNode (encode (RList [RStr bl; RList cs]) ++ tail) tc
             = Ok (InternalNode 0 ch) /\ ch !! s = Some None /\
    (forall k' s' it, indicesFromBitlist bl !! k' = Some s' -> cs !! k' = Some it ->
       ch !! s' = Some (childOf it)).
Proof.
  intros Hok Hbl Htc Hc Hlen Hk Hit H1 H2.
  pose proof (ParseNode_encode _ tail tc Hok) as HP. cbn [shapeSpec] in HP.
  replace (length bl =? 128)%nat with true in HP
    by (symmetry; apply Nat.eqb_eq; exact Hbl).
  cbv beta iota in HP. rewrite HP.
  destruct (createInternalNode_fill bl cs tc) as (_ & _ & ch & Hch & _ & Hin & _);
    [lia|exact (item_ok_internal _ _ Hok)|exact Hc|exact Hlen|].
  exists ch. split; [exact Hch|]. split; [|exact Hin].
  rewrite (Hin k s _ Hk Hit). now rewrite childOf_other_count.
Qed.

Lemma ParseNode_skips_other_counts_witness :
  exists ch, ParseNode (encode (RList [RStr (bitlist128 [x03]);
                   RList [RList [RStr [x01]; RStr [x02]; RStr [x03]];
                          RList [RStr zeroKeyTest; RStr testValue]]]) ++ []) tc10
             = Ok (InternalNode 0 ch) /\ ch !! 0%nat = Some None /\
    ch !! 1%nat = Some (Some (LeafNode zeroKeyTest testValue)).
Proof.
  destruct (ParseNode_skips_other_counts (bitlist128 [x03])
           [RList [RStr [x01]; RStr [x02]; RStr [x03]];
            RList [RStr zeroKeyTest; RStr testValue]] tc10 [] 0 0
           [RStr [x01]; RStr [x02]; RStr [x03]])
    as (ch & Hch & H0 & Hin);
    try (vm_compute; reflexivity); try (vm_compute; lia).
  exists ch. split; [exact Hch|]. split; [exact H0|].
  exact (Hin 1%nat 1%nat (RList [RStr zeroKeyTest; RStr testValue]) eq_refl eq_refl).
Defined.

Lemma length_BytesToHash (b : list byte) : length (BytesToHash b) = 32%nat.
Proof.
  unfold BytesToHash. destruct (32 <? length b)%nat eqn:E.
  - apply Nat.ltb_lt in E. rewrite length_app, repeat_length, length_skipn. lia.
  - apply Nat.ltb_ge in E. rewrite length_app, repeat_length. lia.
Qed.

(** C10: [ParseNode] of a one-element list holding a string [h] of any
    length succeeds with the hashed node [BytesToHash h]: a 32-byte hash
    that is [h] left-padded with zero bytes when [h] has at most 32 bytes,
    and the last 32 bytes of [h] when it is longer. *)
Theorem ParseNode_hashed_any_length (h tail : list byte) (tc : TreeConfig) :
  item_ok (RList [RStr h]) = true ->
  ParseNode (encode (RList [RStr h]) ++ tail) tc = Ok (HashedNode (BytesToHash h)) /\
  length (BytesToHash h) = 32%nat /\
  ((length h <= 32)%nat -> BytesToHash h = repeat x00 (32 - length h) ++ h) /\
  ((32 < length h)%nat -> BytesToHash h = skipn (length h - 32) h).
Proof.
  intros Hok. split; [exact (ParseNode_encode _ tail tc Hok)|].
  split; [apply length_BytesToHash|]. unfold BytesToHash. split.
  - intros Hl. now replace (32 <? length h)%nat with false
      by (symmetry; apply Nat.ltb_ge; lia).
  - intros Hl. rewrite (proj2 (Nat.ltb_lt _ _) Hl), length_skipn.
    replace (32 - (length h - (length h - 32)))%nat with 0%nat by lia.
    reflexivity.
Qed.

Lemma ParseNode_hashed_any_length_witness :
  item_ok (RList [RStr [x01; x02]]) = true /\
  ParseNode (encode (RList [RStr [x01; x02]]) ++ []) tc10
  = Ok (HashedNode (repeat x00 30 ++ [x01; x02])).
Proof.
  assert (H : item_ok (RList [RStr [x01; x02]]) = true) by (vm_compute; reflexivity).
  split; [exact H|].
  destruct (ParseNode_hashed_any_length [x01; x02] [] tc10 H) as (HP & _ & Hle & _).
  rewrite HP, Hle by (cbn; lia). reflexivity.
Defined.

(** ** Internal children of internal nodes *)

Lemma fillChildren_internal_child (b : list byte) (cs : list item) (s : nat)
    (idx : list nat) (r : list byte) (ch : list (option VerkleNode)) :
  item_ok (RList [RStr b; RList cs]) = true ->
  fillChildren (s :: idx) (encode (RList [RStr b; RList cs]) ++ r) ch
  = Err ErrExpectedString.
Proof.
  intros Hok. cbn [fillChildren]. rewrite SplitList_list by exact Hok. cbn [bind].
  assert (Hl : forallb item_ok [RStr b; RList cs] = true)
    by (cbn [item_ok] in Hok; apply andb_prop in Hok; tauto).
  rewrite CountValues_payload by exact Hl. cbn [bind length].
  change (payload [RStr b; RList cs]) with (encode (RStr b) ++ encode (RList cs) ++ []).
  cbn [forallb] in Hl. repeat rewrite andb_true_iff in Hl.
  rewrite parseLeafNode_enc by tauto. reflexivity.
Qed.

Lemma fillChildren_fails_at (k : nat) (idx : list nat) (cs : list item)
    (rest : list byte) (ch : list (option VerkleNode)) (b : list byte) (cs' : list item) :
  Forall (fun s => s < length ch)%nat idx -> forallb item_ok cs = true ->
  (forall j it, (j < k)%nat -> cs !! j = Some it -> childOk it = true) ->
  (k < length idx)%nat -> cs !! k = Some (RList [RStr b; RList cs']) ->
  fillChildren idx (payload cs ++ rest) ch = Err ErrExpectedString.
Proof.
  revert idx cs ch. induction k as [|k IH]; intros idx cs ch Hlt Hok Hc Hk Hit.
  - destruct idx as [|s idx]; [cbn in Hk; lia|].
    destruct cs as [|c cs]; [discriminate|]. injection Hit as ->.
    change (payload (RList [RStr b; RList cs'] :: cs))
      with (encode (RList [RStr b; RList cs']) ++ payload cs).
    cbn [forallb] in Hok. apply andb_prop in Hok as [Hok _].
    rewrite <- app_assoc. now apply fillChildren_internal_child.
  - destruct idx as [|s idx]; [cbn in Hk; lia|].
    destruct cs as [|c cs]; [discriminate|].
    cbn [forallb] in Hok. apply andb_prop in Hok as [Hok1 Hok2].
    apply Forall_cons in Hlt as [Hs Hlt].
    change (payload (c :: cs)) with (encode c ++ payload cs).
    rewrite <- app_assoc, fillChildren_step; [|exact Hok1|apply (Hc 0%nat); [lia|reflexivity]|exact Hs].
    apply IH; [|exact Hok2| |cbn in Hk; lia|exact Hit].
    + destruct (childOf c); rewrite ?length_insert; exact Hlt.
    + intros j it Hj Hj'. apply (Hc (S j)); [lia|exact Hj'].
Qed.

(** C3 (code): an encoded internal node is not accepted as a child of an
    internal node.  Its inner encoding [[b, children']] with a 128-byte [b]
    parses on its own (as [createInternalNode] of it), but when it stands
    as a child of an internal node whose earlier children are accepted
    ([childOk]) and whose bitlist has a slot for it, [ParseNode] of the
    outer node fails with [ErrExpectedString]: the loop reads every
    two-element child as a leaf. *)
Theorem ParseNode_nested_internal_child (bl : list byte) (cs : list item)
    (tc : TreeConfig) (tail : list byte) (k : nat) (b : list byte) (cs' : list item) :
  item_ok (RList [RStr bl; RList cs]) = true ->
  length bl = 128%nat -> (8 * 128 <= nodeChildren tc)%nat -> length b = 128%nat ->
  (forall j it, (j < k)%nat -> cs !! j = Some it -> childOk it = true) ->
  (k < length (indicesFromBitlist bl))%nat ->
  cs !! k = Some (RList [RStr b; RList cs']) ->
  ParseNode (encode (RList [RStr b; RList cs']) ++ tail) tc
    = createInternalNode b (payload cs') tc /\
  ParseNode (encode (RList [RStr bl; RList cs]) ++ tail) tc = Err ErrExpectedString.
Proof.
  intros Hok Hbl Htc Hb Hc Hk Hit.
  pose proof (item_ok_internal _ _ Hok) as Hcs.
  assert (Hin : item_ok (RList [RStr b; RList cs']) = true).
  { apply list_elem_of_lookup_2 in Hit. rewrite forallb_forall in Hcs.
    apply Hcs. now apply list_elem_of_In. }
  split.
  - pose proof (ParseNode_encode _ tail tc Hin) as HP. cbn [shapeSpec] in HP.
    replace (length b =? 128)%nat with true in HP
      by (symmetry; apply Nat.eqb_eq; exact Hb).
    exact HP.
  - pose proof (ParseNode_encode _ tail tc Hok) as HP. cbn [shapeSpec] in HP.
    replace (length bl =? 128)%nat with true in HP
      by (symmetry; apply Nat.eqb_eq; exact Hbl).
    cbv beta iota in HP. rewrite HP.
    unfold createInternalNode, newInternalNode.
    rewrite <- (app_nil_r (payload cs)).
    erewrite fillChildren_fails_at; [reflexivity| |exact Hcs|exact Hc|exact Hk|exact Hit].
    apply Forall_forall. intros s Hs. apply bound_indicesFrom in Hs.
    rewrite repeat_length. lia.
Qed.

Lemma ParseNode_nested_internal_child_witness :
  ParseNode (encode (RList [RStr (bitlist128 [x01]);
                            RList [RList [RStr zeroKeyTest; RStr testValue]]]) ++ []) tc10
    = createInternalNode (bitlist128 [x01])
        (payload [RList [RStr zeroKeyTest; RStr testValue]]) tc10 /\
  ParseNode (encode (RList [RStr (bitlist128 [x01]);
               RList [RList [RStr (bitlist128 [x01]);
                             RList [RList [RStr zeroKeyTest; RStr testValue]]]]]) ++ [])
            tc10 = Err ErrExpectedString.
Proof.
  apply (ParseNode_nested_internal_child (bitlist128 [x01])
           [RList [RStr (bitlist128 [x01]);
                   RList [RList [RStr zeroKeyTest; RStr testValue]]]]
           tc10 [] 0 (bitlist128 [x01])
           [RList [RStr zeroKeyTest; RStr testValue]]);
    try (vm_compute; reflexivity); try (vm_compute; lia).
Defined.

(** ** C2: the slots of an internal-node encoding *)

(** C2 (code): the slots of an internal-node encoding.  For children that
    are hashed nodes or leaves (or lists of other counts, which are
    skipped), as many as there are set bits, the indices read from the
    bitlist are exactly [8*i + j] for the set bits [j] (least significant
    first) of the bytes [i], in strictly increasing order; the [k]-th child
    is stored in the [k]-th of these slots, and every slot whose bit is 0
    is left empty.  But a child that is an encoded internal node
    [[b, children']], which the format allows, is read as a leaf and makes
    [createInternalNode] fail with [ErrExpectedString] instead of being
    assigned to its slot. *)
Theorem createInternalNode_slots :
  (forall (bl : list byte) (cs : list item) (tc : TreeConfig),
    (8 * length bl <= nodeChildren tc)%nat ->
    forallb item_ok cs = true -> forallb childOk cs = true ->
    length cs = length (indicesFromBitlist bl) ->
    (forall s, s ∈ indicesFromBitlist bl <->
       exists i j b, bl !! i = Some b /\ (j < 8)%nat /\
         N.testbit (bval b) (N.of_nat j) = true /\ s = (8 * i + j)%nat) /\
    StronglySorted lt (indicesFromBitlist bl) /\
    exists ch, createInternalNode bl (payload cs) tc = Ok (InternalNode 0 ch) /\
      length ch = nodeChildren tc /\
      (forall k s it, indicesFromBitlist bl !! k = Some s -> cs !! k = Some it ->
         ch !! s = Some (childOf it)) /\
      (forall s, (s < nodeChildren tc)%nat -> s ∉ indicesFromBitlist bl ->
         ch !! s = Some None)) /\
  (forall (bl : list byte) (cs : list item) (tc : TreeConfig) (k : nat)
          (b : list byte) (cs' : list item),
    (8 * length bl <= nodeChildren tc)%nat -> forallb item_ok cs = true ->
    (forall j it, (j < k)%nat -> cs !! j = Some it -> childOk it = true) ->
    (k < length (indicesFromBitlist bl))%nat ->
    cs !! k = Some (RList [RStr b; RList cs']) ->
    createInternalNode bl (payload cs) tc = Err ErrExpectedString).
Proof.
  split.
  - intros bl cs tc. apply createInternalNode_fill.
  - intros bl cs tc k b cs' Hbl Hok Hc Hk Hit.
    unfold createInternalNode, newInternalNode.
    rewrite <- (app_nil_r (payload cs)).
    erewrite fillChildren_fails_at; [reflexivity| |exact Hok|exact Hc|exact Hk|exact Hit].
    apply Forall_forall. intros s Hs. apply bound_indicesFrom in Hs.
    rewrite repeat_length. lia.
Qed.

Lemma createInternalNode_slots_witness :
  (exists ch, createInternalNode (bitlist128 [x05])
      (payload [RList [RStr zeroKeyTest; RStr testValue]; RList [RStr [x01]]]) tc10
    = Ok (InternalNode 0 ch) /\ ch !! 0%nat = Some (Some (LeafNode zeroKeyTest testValue)) /\
    ch !! 1%nat = Some None) /\
  createInternalNode (bitlist128 [x01])
    (payload [RList [RStr (bitlist128 [x01]);
                     RList [RList [RStr zeroKeyTest; RStr testValue]]]]) tc10
  = Err ErrExpectedString.
Proof.
  split.
  - destruct (proj1 createInternalNode_slots (bitlist128 [x05])
                [RList [RStr zeroKeyTest; RStr testValue]; RList [RStr [x01]]] tc10)
      as (_ & _ & ch & Hc & _ & Hk & Hz);
      try (apply Nat.leb_le; vm_compute; reflexivity); try (vm_compute; reflexivity).
    exists ch. split; [exact Hc|]. split.
    + exact (Hk 0%nat 0%nat (RList [RStr zeroKeyTest; RStr testValue]) eq_refl eq_refl).
    + apply Hz; [vm_compute; lia|]. apply (bool_decide_unpack _). vm_compute. exact I.
  - apply (proj2 createInternalNode_slots (bitlist128 [x01])
             [RList [RStr (bitlist128 [x01]);
                     RList [RList [RStr zeroKeyTest; RStr testValue]]]]
             tc10 0%nat (bitlist128 [x01]) [RList [RStr zeroKeyTest; RStr testValue]]);
      try (vm_compute; reflexivity); try (vm_compute; lia).
Defined.

(** ** Round trip of Serialize and ParseNode *)

Lemma BytesToHash_32 (h : list byte) : length h = 32%nat -> BytesToHash h = h.
Proof. intros Hh. unfold BytesToHash. rewrite Hh. cbn. rewrite Hh. reflexivity. Qed.

(** C4 (code, against the [Serialize] modelled from the spec): leaves with
    32-byte keys and hashed nodes with 32-byte hashes round-trip, and so
    does an internal node of depth 0 whose children are leaves; but an
    internal node of depth 1 comes back with depth 0, and an internal node
    with an internal child does not parse at all ([ErrExpectedString]). *)
Theorem Serialize_ParseNode_roundtrip :
  (forall (k v : list byte) (tc : TreeConfig), length k = 32%nat ->
     item_ok (toItem (LeafNode k v)) = true ->
     ParseNode (Serialize (LeafNode k v)) tc = Ok (LeafNode k v)) /\
  (forall (h : list byte) (tc : TreeConfig), length h = 32%nat ->
     item_ok (toItem (HashedNode h)) = true ->
     ParseNode (Serialize (HashedNode h)) tc = Ok (HashedNode h)) /\
  ParseNode (Serialize (InternalNode 0 leafSlots)) tc10 = Ok (InternalNode 0 leafSlots) /\
  ParseNode (Serialize (InternalNode 1 leafSlots)) tc10 = Ok (InternalNode 0 leafSlots) /\
  ParseNode (Serialize (InternalNode 0 nestedSlots)) tc10 = Err ErrExpectedString.
Proof.
  split; [|split; [|split; [|split]]].
  - intros k v tc Hk Hok. unfold Serialize. rewrite <- (app_nil_r (encode _)).
    pose proof (ParseNode_encode _ [] tc Hok) as HP. cbn [toItem shapeSpec] in HP.
    rewrite Hk in HP. exact HP.
  - intros h tc Hh Hok.
    replace (Serialize (HashedNode h)) with (encode (RList [RStr h]) ++ [])
      by (now rewrite app_nil_r).
    pose proof (ParseNode_encode _ [] tc Hok) as HP. cbn [toItem shapeSpec] in HP.
    rewrite HP, BytesToHash_32 by exact Hh. reflexivity.
  - vm_compute. reflexivity.
  - vm_compute. reflexivity.
  - vm_compute. reflexivity.
Qed.

(** ** Hash to field *)

Lemma le_Z_nonneg (bs : list byte) : (0 <= le_Z bs)%Z.
Proof. induction bs as [|b bs IH]; cbn; lia. Qed.

(** C8: on a 32-byte string whose little-endian value is below the modulus
    (as that of [c79e...e000], whose last, most significant, byte is zero)
    the reduction of [hashToFr] changes nothing, so it gives the same field
    element as the canonical decoding [FrFrom32]. *)
Theorem hashToFr_FrFrom32 (h : list byte) :
  length h = 32%nat -> (le_Z h < frModulus)%Z -> FrFrom32 h = Some (hashToFr h).
Proof.
  intros Hl Hlt. unfold FrFrom32, hashToFr. rewrite Hl.
  rewrite (proj2 (Z.ltb_lt _ _) Hlt). cbn [Nat.eqb andb].
  rewrite Z.mod_small; [reflexivity|]. pose proof (le_Z_nonneg h). lia.
Qed.

Lemma hashToFr_FrFrom32_witness :
  length trailingZeroHash = 32%nat /\ (le_Z trailingZeroHash < frModulus)%Z /\
  FrFrom32 trailingZeroHash = Some (hashToFr trailingZeroHash).
Proof.
  assert (H1 : length trailingZeroHash = 32%nat) by reflexivity.
  assert (H2 : (le_Z trailingZeroHash < frModulus)%Z) by (vm_compute; reflexivity).
  split; [exact H1|]. split; [exact H2|].
  exact (hashToFr_FrFrom32 trailingZeroHash H1 H2).
Defined.

(** ** Keys, prefixes and slots *)

Lemma bval_inj (a b : byte) : bval a = bval b -> a = b.
Proof.
  unfold bval. intros H. pose proof (Byte.of_to_N a) as Ha.
  pose proof (Byte.of_to_N b) as Hb. rewrite H in Ha. congruence.
Qed.

Lemma be_N_inj (a b : list byte) : length a = length b -> be_N a = be_N b -> a = b.
Proof.
  revert b. induction a as [|x a IH]; intros [|y b] Hl He; cbn in Hl; try lia; [reflexivity|].
  injection Hl as Hl. rewrite !be_N_cons in He. rewrite Hl in He.
  pose proof (be_N_bound a) as Ha. pose proof (be_N_bound b) as Hb. rewrite Hl in Ha.
  remember (256 ^ N.of_nat (length b)) as M.
  assert (Hxy : bval x = bval y).
  { assert (E1 : (bval x * M + be_N a) / M = bval x)
      by (rewrite N.div_add_l by lia; rewrite N.div_small by lia; lia).
    assert (E2 : (bval y * M + be_N b) / M = bval y)
      by (rewrite N.div_add_l by lia; rewrite N.div_small by lia; lia).
    congruence. }
  rewrite (bval_inj _ _ Hxy). f_equal. apply IH; [exact Hl|]. rewrite Hxy in He. lia.
Qed.

Section Keys.

Context (w : nat).

Lemma keyZ_bound (k : list byte) :
  length k = 32%nat -> (0 <= keyZ k < 2 ^ 256)%Z.
Proof.
  intros Hk. unfold keyZ. pose proof (be_N_bound k) as Hb. rewrite Hk in Hb.
  change (256 ^ N.of_nat 32) with (2 ^ 256) in Hb. lia.
Qed.

Lemma keyZ_nonneg (k : list byte) : (0 <= keyZ k)%Z.
Proof. unfold keyZ. lia. Qed.

Lemma prefix_0 (k : list byte) : length k = 32%nat -> prefix w 0 k = 0%Z.
Proof.
  intros Hk. unfold prefix. cbn [Nat.mul Z.of_nat]. rewrite Z.pow_0_r, Z.mul_1_r.
  apply Z.div_small. now apply keyZ_bound.
Qed.

Lemma prefix_nonneg (d : nat) (k : list byte) : (0 <= prefix w d k)%Z.
Proof.
  unfold prefix. pose proof (keyZ_nonneg k).
  apply Z.div_pos; [|lia]. apply Z.mul_nonneg_nonneg; [lia|]. apply Z.pow_nonneg. lia.
Qed.

Lemma offset2key_Z (k : list byte) (d : nat) :
  Z.of_nat (offset2key w k d) = (prefix w (S d) k mod 2 ^ Z.of_nat w)%Z.
Proof.
  unfold offset2key. rewrite Z2Nat.id; [reflexivity|].
  apply Z.mod_pos_bound. apply Z.pow_pos_nonneg; lia.
Qed.

Lemma offset2key_lt (k : list byte) (d : nat) : (offset2key w k d < NodeChildren w)%nat.
Proof.
  apply Nat2Z.inj_lt. rewrite offset2key_Z. unfold NodeChildren.
  rewrite Nat2Z.inj_pow. apply Z.mod_pos_bound. apply Z.pow_pos_nonneg; lia.
Qed.

Lemma prefix_succ (k : list byte) (d : nat) :
  prefix w (S d) k = (prefix w d k * 2 ^ Z.of_nat w + Z.of_nat (offset2key w k d))%Z.
Proof.
  rewrite offset2key_Z. unfold prefix.
  replace (Z.of_nat (S d * w)) with (Z.of_nat (d * w) + Z.of_nat w)%Z by lia.
  pose proof (keyZ_nonneg k).
  assert (Hw : (0 < 2 ^ Z.of_nat w)%Z) by (apply Z.pow_pos_nonneg; lia).
  assert (Hdw : (0 < 2 ^ Z.of_nat (d * w))%Z) by (apply Z.pow_pos_nonneg; lia).
  rewrite Z.pow_add_r by lia. rewrite Z.mul_assoc.
  set (A := (keyZ k * 2 ^ Z.of_nat (d * w))%Z).
  assert (E : (A * 2 ^ Z.of_nat w / 2 ^ 256 / 2 ^ Z.of_nat w = A / 2 ^ 256)%Z).
  { rewrite Z.div_div by lia. apply Z.div_mul_cancel_r; lia. }
  rewrite <- E. set (X := (A * 2 ^ Z.of_nat w / 2 ^ 256)%Z).
  pose proof (Z.div_mod X (2 ^ Z.of_nat w) ltac:(lia)). lia.
Qed.

Lemma prefix_mono (d : nat) (a b : list byte) :
  (keyZ a <= keyZ b)%Z -> (prefix w d a <= prefix w d b)%Z.
Proof.
  intros H. unfold prefix. apply Z.div_le_mono; [lia|].
  apply Z.mul_le_mono_nonneg_r; [apply Z.pow_nonneg; lia|exact H].
Qed.

Lemma prefix_deep_inj (d : nat) (a b : list byte) :
  (256 <= d * w)%nat -> prefix w d a = prefix w d b -> keyZ a = keyZ b.
Proof.
  intros Hd H. unfold prefix in H.
  replace (Z.of_nat (d * w)) with (256 + (Z.of_nat (d * w) - 256))%Z in H by lia.
  rewrite Z.pow_add_r in H by lia.
  assert (Hp : (0 < 2 ^ (Z.of_nat (d * w) - 256))%Z) by (apply Z.pow_pos_nonneg; lia).
  rewrite !(Z.mul_comm (2 ^ 256)), !Z.mul_assoc, !Z.div_mul in H by lia.
  apply Z.mul_cancel_r in H; lia.
Qed.

Lemma keyZ_inj (a b : list byte) :
  length a = 32%nat -> length b = 32%nat -> keyZ a = keyZ b -> a = b.
Proof.
  intros Ha Hb H. apply be_N_inj; [congruence|]. unfold keyZ in H. lia.
Qed.

Hypothesis Hw : (0 < w)%nat.

Lemma Depth_spec : (256 <= Depth w * w)%nat.
Proof.
  unfold Depth. pose proof (Nat.div_mod (256 + w - 1) w ltac:(lia)) as H.
  pose proof (Nat.mod_upper_bound (256 + w - 1) w ltac:(lia)). nia.
Qed.

(** Two different 32-byte keys with the same [(d+1)*w]-bit prefix leave
    room for one more level. *)
Lemma collide_depth (d : nat) (a b : list byte) :
  length a = 32%nat -> length b = 32%nat -> a <> b ->
  prefix w (S d) a = prefix w (S d) b -> (d + 1 <= Depth w)%nat.
Proof.
  intros Ha Hb Hab H. destruct (le_lt_dec (d + 1) (Depth w)) as [|Hlt]; [assumption|].
  exfalso. apply Hab. apply keyZ_inj; [exact Ha|exact Hb|].
  apply (prefix_deep_inj (S d)); [|exact H].
  pose proof Depth_spec. nia.
Qed.

End Keys.

(** ** Insert and Get *)

Lemma lookup_repeat_inv {A} (x y : A) (n i : nat) : repeat x n !! i = Some y -> y = x.
Proof.
  revert i. induction n as [|n IH]; intros [|i] H; cbn in H; try discriminate.
  - congruence.
  - exact (IH i H).
Qed.

Section InsertProofs.

Context (w : nat) {Fr : Type}.

Lemma Get_Internal (d : nat) (ch : list (option (@node Fr))) (k : list byte) :
  Get w (Internal d ch) k
  = match ch !! offset2key w k d with
    | Some (Some c) => Get w c k
    | _ => Err ErrValueNotPresent
    end.
Proof.
  simpl. generalize (offset2key w k d) as i.
  induction ch as [|[c|] ch IH]; intros [|i]; simpl; try reflexivity; apply IH.
Qed.

Lemma Get_insert_slot (d i : nat) (ch : list (option (@node Fr))) (x : node)
    (k : list byte) :
  (i < length ch)%nat ->
  Get w (Internal d (<[i := Some x]> ch)) k
  = if decide (offset2key w k d = i) then Get w x k else Get w (Internal d ch) k.
Proof.
  intros Hi. rewrite !Get_Internal. destruct (decide (offset2key w k d = i)) as [<-|Hne].
  - now rewrite list_lookup_insert_eq.
  - now rewrite list_lookup_insert_ne by congruence.
Qed.

Lemma Get_newInternal (d : nat) (k : list byte) :
  Get w (@newInternal w Fr d) k = Err ErrValueNotPresent.
Proof.
  unfold newInternal. rewrite Get_Internal.
  destruct (repeat None (NodeChildren w) !! offset2key w k d) as [oc|] eqn:E; [|reflexivity].
  apply lookup_repeat_inv in E as ->. reflexivity.
Qed.

(** Storing [x] in slot [i] of a node: the slots other than [i] answer
    [Get] as before, and slot [i] answers as [x] does. *)
Lemma Get_set_slot (d i : nat) (ch : list (option (@node Fr))) (x : node)
    (old : option node) (key value : list byte) :
  i = offset2key w key d -> (i < length ch)%nat -> ch !! i = Some old ->
  (forall k', offset2key w k' d = i ->
     Get w x k' = if decide (key = k') then Ok value
                  else match old with Some c => Get w c k' | None => Err ErrValueNotPresent end) ->
  forall k', Get w (Internal d (<[i := Some x]> ch)) k'
             = if decide (key = k') then Ok value else Get w (Internal d ch) k'.
Proof.
  intros Hi Hlt Hold Hx k'. rewrite Get_insert_slot by exact Hlt.
  destruct (decide (offset2key w k' d = i)) as [Ho|Ho].
  - rewrite Hx by exact Ho. destruct (decide (key = k')); [reflexivity|].
    rewrite Get_Internal, Ho, Hold. destruct old; reflexivity.
  - destruct (decide (key = k')) as [<-|]; [congruence|reflexivity].
Qed.

Lemma wf_newInternal (Q : Z) (d : nat) :
  (d <= Depth w)%nat -> wf w Q d (@newInternal w Fr d).
Proof.
  intros Hd. constructor; [apply repeat_length|exact Hd| | |].
  - intros j k v Hj. apply lookup_repeat_inv in Hj. discriminate.
  - intros j h Hj. apply lookup_repeat_inv in Hj. discriminate.
  - intros j d' ch' Hj. apply lookup_repeat_inv in Hj. discriminate.
Qed.

Lemma wf_set (P : Z) (d i : nat) (ch : list (option (@node Fr))) (x : node) :
  wf w P d (Internal d ch) -> (i < length ch)%nat ->
  (forall k v, x = Leaf k v ->
     length k = 32%nat /\ prefix w (S d) k = (P * 2 ^ Z.of_nat w + Z.of_nat i)%Z) ->
  (forall h, x <> Hashed h) ->
  (forall d' ch', x = Internal d' ch' ->
     d' = S d /\ wf w (P * 2 ^ Z.of_nat w + Z.of_nat i)%Z (S d) (Internal d' ch')) ->
  wf w P d (Internal d (<[i := Some x]> ch)).
Proof.
  intros Hwf Hi HL HH HI.
  inversion Hwf as [P0 d0 ch0 Hlen Hd Hleaf Hnh Hint]; subst.
  constructor; [now rewrite length_insert|exact Hd| | |].
  - intros j k v Hj. destruct (decide (i = j)) as [<-|Hne].
    + rewrite list_lookup_insert_eq in Hj by exact Hi. injection Hj as Hj. exact (HL k v Hj).
    + rewrite list_lookup_insert_ne in Hj by exact Hne. exact (Hleaf j k v Hj).
  - intros j h Hj. destruct (decide (i = j)) as [<-|Hne].
    + rewrite list_lookup_insert_eq in Hj by exact Hi. injection Hj as Hj. exact (HH h Hj).
    + rewrite list_lookup_insert_ne in Hj by exact Hne. exact (Hnh j h Hj).
  - intros j d' ch' Hj. destruct (decide (i = j)) as [<-|Hne].
    + rewrite list_lookup_insert_eq in Hj by exact Hi. injection Hj as Hj. exact (HI d' ch' Hj).
    + rewrite list_lookup_insert_ne in Hj by exact Hne. exact (Hint j d' ch' Hj).
Qed.

Lemma wf_Internal_inv (P : Z) (d : nat) (n : @node Fr) :
  wf w P d n -> exists ch, n = Internal d ch.
Proof. intros H. inversion H. eauto. Qed.

Hypothesis Hw : (0 < w)%nat.

(** [Insert] below an internal node of depth [d] whose keys share the
    prefix of [key]: it succeeds, keeps the invariant, and afterwards [Get]
    answers [value] for [key] and as before for every other key. *)
Lemma ins_spec (fuel : nat) : forall (P : Z) (d : nat) (n : @node Fr) (key value : list byte),
  wf w P d n -> length key = 32%nat -> prefix w d key = P ->
  (Depth w + 1 - d <= fuel)%nat ->
  exists n', ins w fuel n key value = Ok n' /\ wf w P d n' /\
    forall k', Get w n' k' = if decide (key = k') then Ok value else Get w n k'.
Proof.
  induction fuel as [|f IH]; intros P d n key value Hwf Hk HP Hf.
  - inversion Hwf. lia.
  - inversion Hwf as [P0 d0 ch Hlen Hd Hleaf Hnh Hint]; subst.
    set (i := offset2key w key d).
    assert (HiQ : prefix w (S d) key = (prefix w d key * 2 ^ Z.of_nat w + Z.of_nat i)%Z)
      by apply prefix_succ.
    assert (Hi : (i < length ch)%nat) by (rewrite Hlen; apply offset2key_lt).
    destruct (lookup_lt_is_Some_2 ch i Hi) as [oc Ei].
    cbn [ins]. fold i. rewrite Ei.
    destruct oc as [c|].
    + destruct c as [d' ch'|k v|h].
      * (* an internal child: recurse *)
        destruct (Hint i d' ch' Ei) as [-> Hwc].
        destruct (IH _ _ _ key value Hwc Hk HiQ) as (c' & Hc' & Hwc' & HG); [lia|].
        rewrite Hc'. cbn [bind].
        exists (Internal d (<[i := Some c']> ch)). split; [reflexivity|]. split.
        -- destruct (wf_Internal_inv _ _ _ Hwc') as [ch2 ->].
           apply wf_set; [exact Hwf|exact Hi|intros ? ? [=]|intros ? [=]|].
           intros d2 ch2' [= <- <-]. auto.
        -- apply (Get_set_slot d i ch c' (Some (Internal (S d) ch'))); auto.
      * (* a leaf *)
        destruct (Hleaf i k v Ei) as [Hkl HkQ].
        destruct (decide (k = key)) as [->|Hne].
        -- exists (Internal d (<[i := Some (Leaf key value)]> ch)). split; [reflexivity|].
           split.
           ++ apply wf_set; [exact Hwf|exact Hi| |intros ? [=]|intros ? ? [=]].
              intros k2 v2 [= <- <-]. auto.
           ++ apply (Get_set_slot d i ch _ (Some (Leaf key v))); auto.
              intros k' _. cbn [Get]. destruct (decide (key = k')); reflexivity.
        -- assert (Hdep : (d + 1 <= Depth w)%nat).
           { apply (collide_depth w Hw d k key); auto. congruence. }
           replace (Depth w <? d + 1)%nat with false by (symmetry; apply Nat.ltb_ge; lia).
           assert (Hnew := wf_newInternal (prefix w d key * 2 ^ Z.of_nat w + Z.of_nat i)%Z
                             (S d) ltac:(lia)).
           destruct (IH _ _ _ k v Hnew Hkl ltac:(congruence)) as (c1 & Hc1 & Hw1 & HG1);
             [lia|].
           destruct (IH _ _ _ key value Hw1 Hk HiQ) as (c2 & Hc2 & Hw2 & HG2); [lia|].
           rewrite Hc1. cbn [bind]. rewrite Hc2. cbn [bind].
           exists (Internal d (<[i := Some c2]> ch)). split; [reflexivity|]. split.
           ++ destruct (wf_Internal_inv _ _ _ Hw2) as [ch2 ->].
              apply wf_set; [exact Hwf|exact Hi|intros ? ? [=]|intros ? [=]|].
              intros d2 ch2' [= <- <-]. auto.
           ++ apply (Get_set_slot d i ch c2 (Some (Leaf k v))); auto.
              intros k' _. rewrite HG2, HG1, Get_newInternal. reflexivity.
      * exfalso. exact (Hnh i h Ei).
    + exists (Internal d (<[i := Some (Leaf key value)]> ch)). split; [reflexivity|].
      split.
      * apply wf_set; [exact Hwf|exact Hi| |intros ? [=]|intros ? ? [=]].
        intros k2 v2 [= <- <-]. auto.
      * apply (Get_set_slot d i ch _ None); auto.
Qed.

End InsertProofs.

Lemma lastValue_fold_absent (ops : list (list byte * list byte)) (k : list byte)
    (r : result (list byte)) :
  k ∉ map fst ops ->
  fold_left (fun r '(k0, v) => if decide (k0 = k) then Ok v else r) ops r = r.
Proof.
  revert r. induction ops as [|[k0 v] ops IH]; intros r Hk; [reflexivity|].
  cbn [fold_left]. cbn [map fst] in Hk.
  destruct (decide (k0 = k)) as [->|Hne].
  - exfalso. apply Hk. left.
  - apply IH. intros H. apply Hk. now right.
Qed.

Lemma lastValue_absent (ops : list (list byte * list byte)) (k : list byte) :
  k ∉ map fst ops -> lastValue ops k = Err ErrValueNotPresent.
Proof. intros Hk. unfold lastValue. now apply lastValue_fold_absent. Qed.

Lemma lastValue_last (pre post : list (list byte * list byte)) (k v : list byte) :
  k ∉ map fst post -> lastValue (pre ++ (k, v) :: post) k = Ok v.
Proof.
  intros Hk. unfold lastValue. rewrite fold_left_app. cbn [fold_left].
  rewrite decide_True by reflexivity. now apply lastValue_fold_absent.
Qed.

Lemma insertAll_spec (w : nat) {Fr : Type} (Hw : (0 < w)%nat)
    (ops : list (list byte * list byte)) :
  forall root : @node Fr, wf w 0 0 root ->
  Forall (fun kv => length kv.1 = 32%nat) ops ->
  exists t, insertAll w root ops = Ok t /\ wf w 0 0 t /\
    forall k, Get w t k
              = fold_left (fun r '(k0, v) => if decide (k0 = k) then Ok v else r)
                  ops (Get w root k).
Proof.
  induction ops as [|[k v] ops IH]; intros root Hwf Hops.
  - exists root. auto.
  - apply Forall_cons in Hops as [Hk Hops]. cbn in Hk.
    destruct (ins_spec w Hw (S (Depth w)) 0 0 root k v Hwf Hk (prefix_0 w k Hk))
      as (t1 & Ht1 & Hw1 & HG1); [lia|].
    destruct (IH t1 Hw1 Hops) as (t & Ht & Hwt & HG).
    exists t. split; [|split; [exact Hwt|]].
    + cbn [insertAll]. unfold Insert. rewrite Ht1. exact Ht.
    + intros k'. rewrite HG, HG1. reflexivity.
Qed.

(** C6: after inserting a list [ops] of 32-byte keys and values into a
    fresh tree (width [w > 0]), every insertion succeeds and [Get k]
    returns the value of the last insertion of [k] ([lastValue]); it
    fails with [ErrValueNotPresent] when [k] was never inserted. *)
Theorem Get_returns_last_insert (w : nat) {Fr : Type} (Hw : (0 < w)%nat)
    (ops : list (list byte * list byte)) :
  Forall (fun kv => length kv.1 = 32%nat) ops ->
  exists t : @node Fr, insertAll w (New w) ops = Ok t /\
    (forall k, Get w t k = lastValue ops k) /\
    (forall k, k ∉ map fst ops -> Get w t k = Err ErrValueNotPresent) /\
    (forall pre k v post, ops = pre ++ (k, v) :: post -> k ∉ map fst post ->
       Get w t k = Ok v).
Proof.
  intros Hops.
  assert (HN : wf w 0 0 (@New w Fr)) by (apply wf_newInternal; lia).
  destruct (insertAll_spec w Hw ops (New w) HN Hops) as (t & Ht & _ & HG).
  assert (HL : forall k, Get w t k = lastValue ops k).
  { intros k. rewrite HG. unfold New. rewrite Get_newInternal. reflexivity. }
  exists t. split; [exact Ht|]. split; [exact HL|]. split.
  - intros k Hk. rewrite HL. now apply lastValue_absent.
  - intros pre k v post -> Hk. rewrite HL. now apply lastValue_last.
Qed.

Lemma Get_returns_last_insert_witness :
  exists t : @node Z,
    insertAll 10 (New 10) [(zeroKeyTest, testValue); (oneKeyTest, testValue);
                           (zeroKeyTest, [x01])] = Ok t /\
    Get 10 t zeroKeyTest = Ok [x01] /\ Get 10 t oneKeyTest = Ok testValue /\
    Get 10 t ffx32KeyTest = Err ErrValueNotPresent.
Proof.
  destruct (Get_returns_last_insert 10 (Fr := Z) ltac:(lia)
              [(zeroKeyTest, testValue); (oneKeyTest, testValue); (zeroKeyTest, [x01])]
              ltac:(repeat constructor)) as (t & Ht & HL & _).
  exists t. split; [exact Ht|]. rewrite !HL. vm_compute. auto.
Defined.

(** ** InsertOrdered against Insert *)

Lemma lookup_map_list {A B} (f : A -> B) (l : list A) (j : nat) :
  map f l !! j = option_map f (l !! j).
Proof. revert j. induction l as [|x l IH]; intros [|j]; cbn; auto. Qed.

Lemma slots_map_eq {Fr X : Type} (f : option (@node Fr) -> X)
    (chu cho : list (option node)) :
  length chu = length cho ->
  (forall j, chu !! j = Some None <-> cho !! j = Some None) ->
  (forall j cu co, chu !! j = Some (Some cu) -> cho !! j = Some (Some co) ->
     f (Some cu) = f (Some co)) ->
  map f chu = map f cho.
Proof.
  intros Hl H2 H3. apply list_eq. intros j. rewrite !lookup_map_list.
  destruct (chu !! j) as [[cu|]|] eqn:E1, (cho !! j) as [[co|]|] eqn:E2;
    cbn [option_map]; try reflexivity;
    first [ f_equal; exact (H3 j _ _ E1 E2)
          | apply H2 in E2; congruence
          | apply H2 in E1; congruence
          | apply lookup_lt_Some in E1; apply lookup_ge_None in E2; lia
          | apply lookup_ge_None in E1; apply lookup_lt_Some in E2; lia ].
Qed.

Lemma finalizeLeft_lookup {Fr G1 : Type} (zero : Fr) (commit : list Fr -> G1)
    (hashG1 : G1 -> Fr) (leafHash : list byte -> list byte -> Fr)
    (i j : nat) (ch : list (option node)) :
  finalizeLeft zero commit hashG1 leafHash i ch !! j
  = match ch !! j with
    | Some oc => Some (if (j <? i)%nat then finalize zero commit hashG1 leafHash oc else oc)
    | None => None
    end.
Proof.
  unfold finalizeLeft. rewrite list_lookup_imap. destruct (ch !! j); reflexivity.
Qed.

Lemma finalizeLeft_repeat {Fr G1 : Type} (zero : Fr) (commit : list Fr -> G1)
    (hashG1 : G1 -> Fr) (leafHash : list byte -> list byte -> Fr) (i n : nat) :
  finalizeLeft zero commit hashG1 leafHash i (repeat None n) = repeat None n.
Proof.
  apply list_eq. intros j. rewrite finalizeLeft_lookup.
  destruct (repeat None n !! j) as [oc|] eqn:E; [|reflexivity].
  apply lookup_repeat_inv in E as ->. destruct (j <? i)%nat; reflexivity.
Qed.

Lemma keyLt_keyZ (a b : list byte) :
  length a = length b -> keyLt a b = true -> (keyZ a < keyZ b)%Z.
Proof.
  unfold keyLt, keyZ. intros Hl Hlt. apply N2Z.inj_lt.
  revert b Hl Hlt. induction a as [|x a IH]; intros [|y b] Hl Hlt; cbn in Hl; try lia.
  - discriminate.
  - injection Hl as Hl. cbn [bytesCompare] in Hlt. rewrite !be_N_cons.
    pose proof (be_N_bound a) as Ha. pose proof (be_N_bound b) as Hb.
    rewrite Hl in Ha |- *.
    destruct (N.compare_spec (bval x) (bval y)) as [Hxy|Hxy|Hxy].
    + rewrite Hxy. specialize (IH b Hl Hlt). lia.
    + nia.
    + discriminate.
Qed.

Lemma bytesCompare_antisym (a b : list byte) :
  bytesCompare b a = CompOpp (bytesCompare a b).
Proof.
  revert b. induction a as [|x a IH]; intros [|y b]; cbn; try reflexivity.
  rewrite (N.compare_antisym (bval x) (bval y)).
  destruct (N.compare (bval x) (bval y)); cbn; auto.
Qed.

Lemma keyLt_asym (a b : list byte) : keyLt a b = true -> keyLt b a = false.
Proof.
  unfold keyLt. rewrite (bytesCompare_antisym a b).
  destruct (bytesCompare a b); cbn; congruence.
Qed.

Section OrderedProofs.

Context (w : nat) {Fr G1 : Type}.
Context (zero : Fr) (commit : list Fr -> G1) (hashG1 : G1 -> Fr)
        (leafHash : list byte -> list byte -> Fr).

Lemma sim_hash (B : list byte) (Q : Z) (d : nat) (u o : node) :
  sim w zero commit hashG1 leafHash B Q d u o ->
  Hash zero commit hashG1 leafHash u = Hash zero commit hashG1 leafHash o.
Proof.
  induction 1 as [Q d h o Hh _|Q d k v|Q d chu cho Hl H2 H3 IH].
  - exact Hh.
  - reflexivity.
  - cbn [Hash]. f_equal. f_equal. apply slots_map_eq; [exact Hl|exact H2|].
    intros j cu co E1 E2. exact (IH j cu co E1 E2).
Qed.

Lemma sim_mono (B B' : list byte) (Q : Z) (d : nat) (u o : node) :
  (keyZ B <= keyZ B')%Z ->
  sim w zero commit hashG1 leafHash B Q d u o ->
  sim w zero commit hashG1 leafHash B' Q d u o.
Proof.
  intros HB. induction 1 as [Q d h o Hh HQ|Q d k v|Q d chu cho Hl H2 H3 IH].
  - constructor; [exact Hh|]. pose proof (prefix_mono w d B B' HB). lia.
  - constructor.
  - constructor; auto.
Qed.

(** A node holding only leaves and empty slots stands for itself. *)
Lemma sim_refl_leaves (B : list byte) (Q : Z) (d : nat) (ch : list (option node)) :
  (forall j c, ch !! j = Some (Some c) -> exists k v, c = Leaf k v) ->
  sim w zero commit hashG1 leafHash B Q d (Internal d ch) (Internal d ch).
Proof.
  intros H. constructor; [reflexivity|reflexivity|].
  intros j cu co E1 E2. rewrite E1 in E2. injection E2 as <-.
  destruct (H j cu E1) as (k & v & ->). constructor.
Qed.

Lemma sim_Internal_inv (B : list byte) (Q : Z) (d : nat) (chu cho : list (option node)) :
  sim w zero commit hashG1 leafHash B Q d (Internal d chu) (Internal d cho) ->
  length chu = length cho /\
  (forall j, chu !! j = Some None <-> cho !! j = Some None) /\
  (forall j cu co, chu !! j = Some (Some cu) -> cho !! j = Some (Some co) ->
     sim w zero commit hashG1 leafHash B (Q * 2 ^ Z.of_nat w + Z.of_nat j)%Z (S d) cu co).
Proof. intros H. inversion H; subst. auto. Qed.

Lemma sim_set (B : list byte) (Q : Z) (d i : nat) (chu cho : list (option node))
    (x y : node) :
  sim w zero commit hashG1 leafHash B Q d (Internal d chu) (Internal d cho) ->
  (i < length chu)%nat ->
  sim w zero commit hashG1 leafHash B (Q * 2 ^ Z.of_nat w + Z.of_nat i)%Z (S d) x y ->
  sim w zero commit hashG1 leafHash B Q d
    (Internal d (<[i := Some x]> chu)) (Internal d (<[i := Some y]> cho)).
Proof.
  intros Hs Hi Hxy. apply sim_Internal_inv in Hs as (Hl & H2 & H3).
  constructor; [now rewrite !length_insert|..].
  - intros j. destruct (decide (i = j)) as [<-|Hne].
    + rewrite !list_lookup_insert_eq by lia. split; discriminate.
    + rewrite !list_lookup_insert_ne by exact Hne. apply H2.
  - intros j cu co E1 E2. destruct (decide (i = j)) as [<-|Hne].
    + rewrite list_lookup_insert_eq in E1, E2 by lia. congruence.
    + rewrite list_lookup_insert_ne in E1, E2 by exact Hne. exact (H3 j cu co E1 E2).
Qed.

(** Replacing the children left of slot [i] by their hashes keeps the
    relation, when every key of those children is below the bound. *)
Lemma sim_finalize (B : list byte) (Q : Z) (d i : nat) (chu cho : list (option node)) :
  sim w zero commit hashG1 leafHash B Q d (Internal d chu) (Internal d cho) ->
  (forall j, (j < i)%nat -> (Q * 2 ^ Z.of_nat w + Z.of_nat j < prefix w (S d) B)%Z) ->
  sim w zero commit hashG1 leafHash B Q d
    (Internal d (finalizeLeft zero commit hashG1 leafHash i chu)) (Internal d cho).
Proof.
  intros Hs Hb. apply sim_Internal_inv in Hs as (Hl & H2 & H3).
  constructor.
  - unfold finalizeLeft. now rewrite length_imap.
  - intros j. rewrite finalizeLeft_lookup, <- H2.
    destruct (chu !! j) as [[c|]|]; destruct (j <? i)%nat; cbn; try tauto;
      destruct c; cbn; split; discriminate.
  - intros j cu co E1 E2. rewrite finalizeLeft_lookup in E1.
    destruct (j <? i)%nat eqn:Ej;
      destruct (chu !! j) as [[c|]|] eqn:E; cbn in E1; try discriminate;
      [|specialize (H3 j c co E E2); congruence].
    specialize (H3 j c co E E2). apply Nat.ltb_lt in Ej.
    destruct c as [d' ch'|k v|h]; cbn in E1; injection E1 as <-; [| |exact H3];
      constructor; [exact (sim_hash _ _ _ _ _ H3)|apply Hb; exact Ej
                   |exact (sim_hash _ _ _ _ _ H3)|apply Hb; exact Ej].
Qed.

Lemma ins_newInternal (fuel d : nat) (k v : list byte) :
  ins w (S fuel) (@newInternal w Fr d) k v
  = Ok (Internal d (<[offset2key w k d := Some (Leaf k v)]> (repeat None (NodeChildren w)))).
Proof.
  unfold newInternal. cbn [ins].
  rewrite lookup_repeat_lt by apply offset2key_lt. reflexivity.
Qed.

Lemma insOrdered_newInternal (fuel d : nat) (k v : list byte) :
  insOrdered w zero commit hashG1 leafHash (S fuel) (newInternal w d) k v
  = Ok (Internal d (<[offset2key w k d := Some (Leaf k v)]> (repeat None (NodeChildren w)))).
Proof.
  unfold newInternal. cbn [insOrdered]. rewrite finalizeLeft_repeat.
  rewrite lookup_repeat_lt by apply offset2key_lt. reflexivity.
Qed.

Lemma one_leaf_leaves (i : nat) (k v : list byte) (n : nat) :
  forall j c, <[i := Some (@Leaf Fr k v)]> (repeat None n) !! j = Some (Some c) ->
  exists k' v', c = Leaf k' v'.
Proof.
  intros j c Hj. destruct (decide (i = j)) as [<-|Hne].
  - destruct (decide (i < n)%nat) as [Hi|Hi].
    + rewrite list_lookup_insert_eq in Hj by (rewrite repeat_length; exact Hi).
      injection Hj as <-. eauto.
    + rewrite list_insert_ge in Hj by (rewrite repeat_length; lia).
      apply lookup_repeat_inv in Hj. discriminate.
  - rewrite list_lookup_insert_ne in Hj by exact Hne.
    apply lookup_repeat_inv in Hj. discriminate.
Qed.

End OrderedProofs.

Section OrderedMain.

Context (w : nat) {Fr G1 : Type}.
Context (zero : Fr) (commit : list Fr -> G1) (hashG1 : G1 -> Fr)
        (leafHash : list byte -> list byte -> Fr).
Hypothesis Hw : (0 < w)%nat.

(** One insertion of [key] by [InsertOrdered] and by [Insert], below nodes
    related with bound [key]: both succeed and the results stay related. *)
Lemma ord_spec (fuel : nat) :
  forall (P : Z) (d : nat) (u o : @node Fr) (key value : list byte),
  wf w P d o -> sim w zero commit hashG1 leafHash key P d u o ->
  length key = 32%nat -> prefix w d key = P -> (Depth w + 1 - d <= fuel)%nat ->
  exists u' o', insOrdered w zero commit hashG1 leafHash fuel u key value = Ok u' /\
    ins w fuel o key value = Ok o' /\ sim w zero commit hashG1 leafHash key P d u' o'.
Proof.
  induction fuel as [|f IH]; intros P d u o key value Hwf Hs Hk HP Hf.
  - inversion Hwf. lia.
  - destruct (wf_Internal_inv w P d o Hwf) as [cho ->].
    inversion Hwf as [P0 d0 ch0 Hlen Hd Hleaf Hnh Hint]; subst.
    destruct u as [du chu|k v|h]; [|inversion Hs|inversion Hs; lia].
    assert (du = d) by (inversion Hs; auto). subst du.
    set (i := offset2key w key d).
    assert (HiQ : prefix w (S d) key = (prefix w d key * 2 ^ Z.of_nat w + Z.of_nat i)%Z)
      by apply prefix_succ.
    assert (Hi : (i < length cho)%nat) by (rewrite Hlen; apply offset2key_lt).
    cbn [insOrdered ins]. fold i.
    set (ch := finalizeLeft zero commit hashG1 leafHash i chu).
    assert (Hsf : sim w zero commit hashG1 leafHash key (prefix w d key) d
                    (Internal d ch) (Internal d cho)).
    { apply sim_finalize; [exact Hs|]. intros j Hj. rewrite HiQ. lia. }
    pose proof (sim_Internal_inv w zero commit hashG1 leafHash _ _ _ _ _ Hsf) as (Hl & H2 & H3).
    assert (Hi' : (i < length ch)%nat) by lia.
    destruct (lookup_lt_is_Some_2 cho i Hi) as [oco Eo].
    destruct oco as [co|].
    + destruct (lookup_lt_is_Some_2 ch i Hi') as [ocu Eu].
      destruct ocu as [cu|]; [|apply H2 in Eu; congruence].
      pose proof (H3 i cu co Eu Eo) as Hc.
      rewrite Eu, Eo.
      destruct co as [d' ch'|k v|h].
      * destruct (Hint i d' ch' Eo) as [-> Hwc].
        destruct cu as [du' chu'|k v|h]; [|inversion Hc|inversion Hc; subst; lia].
        assert (du' = S d) by (inversion Hc; auto). subst du'.
        destruct (IH _ _ _ _ key value Hwc Hc Hk HiQ) as (u' & o' & Hu' & Ho' & Hs');
          [lia|].
        rewrite Hu', Ho'. cbn [bind]. eexists _, _.
        split; [reflexivity|]. split; [reflexivity|].
        apply sim_set; [exact Hsf|exact Hi'|exact Hs'].
      * destruct cu as [du' chu'|k' v'|h]; [inversion Hc| |inversion Hc; subst; lia].
        inversion Hc; subst k' v'.
        destruct (Hleaf i k v Eo) as [Hkl HkQ].
        destruct (decide (k = key)) as [->|Hne].
        -- eexists _, _. split; [reflexivity|]. split; [reflexivity|].
           apply sim_set; [exact Hsf|exact Hi'|constructor].
        -- assert (Hdep : (d + 1 <= Depth w)%nat).
           { apply (collide_depth w Hw d k key); auto. congruence. }
           replace (Depth w <? d + 1)%nat with false by (symmetry; apply Nat.ltb_ge; lia).
           destruct f as [|f']; [lia|].
           rewrite ins_newInternal, insOrdered_newInternal. cbn [bind].
           set (c1 := Internal (S d) (<[offset2key w k (S d) := Some (@Leaf Fr k v)]>
                                        (repeat None (NodeChildren w)))).
           assert (Hw1 : wf w (prefix w d key * 2 ^ Z.of_nat w + Z.of_nat i)%Z (S d) c1).
           { destruct (ins_spec w Hw (S f') (prefix w d key * 2 ^ Z.of_nat w + Z.of_nat i)%Z
                         (S d) (@newInternal w Fr (S d)) k v
                         (wf_newInternal w _ (S d) ltac:(lia)) Hkl HkQ)
               as (n' & Hn' & Hwn' & _); [lia|].
             rewrite ins_newInternal in Hn'. injection Hn' as <-. exact Hwn'. }
           assert (Hs1 : sim w zero commit hashG1 leafHash key
                           (prefix w d key * 2 ^ Z.of_nat w + Z.of_nat i)%Z (S d) c1 c1)
             by (apply sim_refl_leaves, one_leaf_leaves).
           destruct (IH _ _ _ _ key value Hw1 Hs1 Hk HiQ) as (u2 & o2 & Hu2 & Ho2 & Hs2);
             [lia|].
           rewrite Hu2, Ho2. cbn [bind]. eexists _, _.
           split; [reflexivity|]. split; [reflexivity|].
           apply sim_set; [exact Hsf|exact Hi'|exact Hs2].
      * exfalso. exact (Hnh i h Eo).
    + pose proof (proj2 (H2 i) Eo) as Eu. rewrite Eu, Eo.
      eexists _, _. split; [reflexivity|]. split; [reflexivity|].
      apply sim_set; [exact Hsf|exact Hi'|constructor].
Qed.

Lemma insertOrderedAll_spec (ops : list (list byte * list byte)) :
  forall (u o : @node Fr) (last : option (list byte)),
  wf w 0 0 o ->
  (last = None -> forall B, sim w zero commit hashG1 leafHash B 0 0 u o) ->
  (forall l, last = Some l -> length l = 32%nat /\ sim w zero commit hashG1 leafHash l 0 0 u o) ->
  Forall (fun kv => length kv.1 = 32%nat) ops ->
  increasing (match last with Some l => l :: map fst ops | None => map fst ops end) = true ->
  exists u' last' o' B,
    insertOrderedAll w zero commit hashG1 leafHash (u, last) ops = Ok (u', last') /\
    insertAll w o ops = Ok o' /\ wf w 0 0 o' /\ length B = 32%nat /\
    sim w zero commit hashG1 leafHash B 0 0 u' o'.
Proof.
  induction ops as [|[k v] ops IH]; intros u o last Hwf Hnone Hsome Hops Hinc.
  - destruct last as [l|].
    + destruct (Hsome l eq_refl) as [Hl Hs].
      exists u, (Some l), o, l. auto.
    + exists u, None, o, (repeat x00 32). repeat split; auto.
  - apply Forall_cons in Hops as [Hk Hops]. cbn [fst] in Hk.
    assert (Hsk : sim w zero commit hashG1 leafHash k 0 0 u o /\
                  increasing (k :: map fst ops) = true /\
                  match last with Some l => keyLt k l = false | None => True end).
    { destruct last as [l|].
      - destruct (Hsome l eq_refl) as [Hl Hs]. cbn [map fst increasing] in Hinc.
        apply andb_prop in Hinc as [Hlt Hinc].
        split; [|split; [exact Hinc|now apply keyLt_asym]].
        apply (sim_mono w zero commit hashG1 leafHash l); [|exact Hs].
        pose proof (keyLt_keyZ l k ltac:(congruence) Hlt). lia.
      - split; [now apply Hnone|]. split; [exact Hinc|exact I]. }
    destruct Hsk as (Hsk & Hinc' & Hord).
    destruct (ord_spec (S (Depth w)) 0 0 u o k v Hwf Hsk Hk (prefix_0 w k Hk))
      as (u1 & o1 & Hu1 & Ho1 & Hs1); [lia|].
    assert (Hw1 : wf w 0 0 o1).
    { destruct (ins_spec w Hw (S (Depth w)) 0 0 o k v Hwf Hk (prefix_0 w k Hk))
        as (n' & Hn' & Hwn' & _); [lia|].
      congruence. }
    destruct (IH u1 o1 (Some k) Hw1 ltac:(discriminate)
                (fun l Hl => ltac:(injection Hl as <-; auto)) Hops Hinc')
      as (u' & last' & o' & B & Hu' & Ho' & Hwo' & HB & Hs').
    exists u', last', o', B. split; [|split; [|auto]].
    + cbn [insertOrderedAll]. unfold InsertOrdered.
      assert (Hchk : match last with Some l => negb (keyLt k l) | None => true end = true)
        by (destruct last; [rewrite Hord|]; reflexivity).
      rewrite Hchk. unfold Depth in Hu1 |- *. rewrite Hu1. cbn [bind]. exact Hu'.
    + cbn [insertAll]. unfold Insert. rewrite Ho1. cbn [bind]. exact Ho'.
Qed.

End OrderedMain.

(** C5: for a list [ops] of 32-byte keys in strictly increasing order
    ([bytes.Compare]), inserting all of them with [InsertOrdered] and with
    [Insert] into fresh trees of width [w > 0] both succeed, and
    [ComputeCommitment] gives the same root commitment, whatever the
    commitment scheme ([commit], [hashG1], [leafHash]). *)
Theorem InsertOrdered_same_commitment (w : nat) {Fr G1 : Type} (zero : Fr)
    (commit : list Fr -> G1) (hashG1 : G1 -> Fr) (leafHash : list byte -> list byte -> Fr)
    (Hw : (0 < w)%nat) (ops : list (list byte * list byte)) :
  Forall (fun kv => length kv.1 = 32%nat) ops -> increasing (map fst ops) = true ->
  exists t1 last t2,
    insertOrderedAll w zero commit hashG1 leafHash (New w, None) ops = Ok (t1, last) /\
    insertAll w (New w) ops = Ok t2 /\
    ComputeCommitment zero commit hashG1 leafHash t1
    = ComputeCommitment zero commit hashG1 leafHash t2.
Proof.
  intros Hops Hinc.
  assert (HN : wf w 0 0 (@New w Fr)) by (apply wf_newInternal; lia).
  assert (HsN : forall B, sim w zero commit hashG1 leafHash B 0 0 (New w) (New w)).
  { intros B. apply sim_refl_leaves. intros j c Hj.
    apply lookup_repeat_inv in Hj. discriminate. }
  destruct (insertOrderedAll_spec w zero commit hashG1 leafHash Hw ops (New w) (New w) None
              HN (fun _ => HsN) ltac:(discriminate) Hops Hinc)
    as (t1 & last & t2 & B & Ht1 & Ht2 & Hwf2 & HB & Hs).
  exists t1, last, t2. split; [exact Ht1|]. split; [exact Ht2|].
  destruct (wf_Internal_inv w 0 0 t2 Hwf2) as [cho ->].
  destruct t1 as [du chu|k v|h]; [|inversion Hs|inversion Hs; subst; rewrite prefix_0 in *; lia].
  assert (du = 0%nat) by (inversion Hs; auto). subst du.
  apply sim_Internal_inv in Hs as (Hl & H2 & H3).
  cbn [ComputeCommitment]. f_equal. f_equal. apply slots_map_eq; auto.
  intros j cu co E1 E2. exact (sim_hash w zero commit hashG1 leafHash _ _ _ _ _ (H3 j cu co E1 E2)).
Qed.

Lemma InsertOrdered_same_commitment_witness :
  exists t1 last t2,
    insertOrderedAll 10 0%Z (fun l : list Z => l) (fun l => fold_right Z.add 0%Z l)
      (fun k _ => keyZ k) (New 10, None)
      [(zeroKeyTest, testValue); (fourtyKeyTest, testValue); (ffx32KeyTest, testValue)]
    = Ok (t1, last) /\
    insertAll 10 (New 10)
      [(zeroKeyTest, testValue); (fourtyKeyTest, testValue); (ffx32KeyTest, testValue)]
    = Ok t2 /\
    ComputeCommitment 0%Z (fun l : list Z => l) (fun l => fold_right Z.add 0%Z l)
      (fun k _ => keyZ k) t1
    = ComputeCommitment 0%Z (fun l : list Z => l) (fun l => fold_right Z.add 0%Z l)
      (fun k _ => keyZ k) t2.
Proof.
  apply (InsertOrdered_same_commitment 10 0%Z (fun l : list Z => l)
           (fun l => fold_right Z.add 0%Z l) (fun k _ => keyZ k) ltac:(lia));
    [repeat constructor|vm_compute; reflexivity].
Defined.

(** * Further properties of encoding.go *)

(** ** What [ParseNode] returns *)

Lemma parseHashedNode_shape (raw : list byte) (n : VerkleNode) :
  parseHashedNode raw = Ok n -> exists h, n = HashedNode h /\ length h = 32%nat.
Proof.
  unfold parseHashedNode. destruct (SplitString raw) as [[h r]|e]; cbn; [|discriminate].
  intros [= <-]. exists (BytesToHash h). split; [reflexivity|apply length_BytesToHash].
Qed.

Lemma parseLeafNode_shape (raw : list byte) (n : VerkleNode) :
  parseLeafNode raw = Ok n -> exists k v, n = LeafNode k v.
Proof.
  unfold parseLeafNode. destruct (SplitString raw) as [[k r]|e]; cbn; [|discriminate].
  destruct (SplitString r) as [[v r']|e]; cbn; [|discriminate].
  intros [= <-]. eauto.
Qed.

Lemma setChild_shape (index : nat) (x : VerkleNode) (ch ch' : list (option VerkleNode)) :
  setChild index x ch = Ok ch' -> childShape x ->
  (forall j c, ch !! j = Some (Some c) -> childShape c) ->
  length ch' = length ch /\ (forall j c, ch' !! j = Some (Some c) -> childShape c).
Proof.
  unfold setChild. destruct (index <? length ch)%nat; [|discriminate].
  intros [= <-] Hx Hch. rewrite length_insert. split; [reflexivity|].
  intros j c Hj. apply list_lookup_insert_Some in Hj as [(_ & [= <-] & _)|(_ & Hj)].
  - exact Hx.
  - exact (Hch j c Hj).
Qed.

Lemma fillChildren_shape (idx : list nat) :
  forall (raw : list byte) (ch ch' : list (option VerkleNode)),
  fillChildren idx raw ch = Ok ch' ->
  (forall j c, ch !! j = Some (Some c) -> childShape c) ->
  length ch' = length ch /\ (forall j c, ch' !! j = Some (Some c) -> childShape c).
Proof.
  induction idx as [|s idx IH]; intros raw ch ch' Hf Hch.
  - injection Hf as <-. auto.
  - cbn [fillChildren] in Hf.
    destruct (SplitList raw) as [[el rest]|e]; cbn [bind] in Hf; [|discriminate].
    destruct (CountValues el) as [c|e]; cbn [bind] in Hf; [|discriminate].
    match type of Hf with bind ?m _ = _ => destruct m as [ch1|e] eqn:Hm end;
      cbn [bind] in Hf; [|discriminate].
    assert (H1 : length ch1 = length ch /\
                 (forall j c, ch1 !! j = Some (Some c) -> childShape c)).
    { destruct c as [|[|[|c]]]; cbn in Hm.
      - injection Hm as <-. auto.
      - destruct (parseHashedNode el) as [x|e] eqn:Ex; cbn in Hm; [|discriminate].
        apply parseHashedNode_shape in Ex as (h & -> & Hh).
        exact (setChild_shape _ _ _ _ Hm Hh Hch).
      - destruct (parseLeafNode el) as [x|e] eqn:Ex; cbn in Hm; [|discriminate].
        apply parseLeafNode_shape in Ex as (k & v & ->).
        exact (setChild_shape _ _ _ _ Hm I Hch).
      - injection Hm as <-. auto. }
    destruct H1 as [Hl1 Hs1].
    destruct (IH rest ch1 ch' Hf Hs1) as [Hl Hs]. split; [congruence|exact Hs].
Qed.

(** Whatever the input, a node [ParseNode] returns has one of the shapes of
    [parsedShape]: a hashed node has a 32-byte hash; a leaf at the top has a
    32-byte key; an internal node has depth 0, [nodeChildren tc] slots, and
    only hashed nodes (with 32-byte hashes) and leaves as children, never
    an internal node. *)
Theorem ParseNode_result_shape (serialized : list byte) (tc : TreeConfig) (n : VerkleNode) :
  ParseNode serialized tc = Ok n -> parsedShape tc n.
Proof.
  unfold ParseNode.
  destruct (SplitList serialized) as [[elems r]|e]; cbn [bind]; [|discriminate].
  destruct (CountValues elems) as [c|e]; cbn [bind]; [|discriminate].
  destruct (c =? 1)%nat.
  { intros H. apply parseHashedNode_shape in H as (h & -> & Hh). exact Hh. }
  destruct (c =? 2)%nat; [|discriminate].
  destruct (Split elems) as [[[kind first] rest]|e]; cbn [bind]; [|discriminate].
  destruct (negb (kind_eqb kind String)); [discriminate|].
  destruct (length first =? 32)%nat eqn:E32.
  { destruct (SplitString rest) as [[v r']|e]; cbn [bind]; [|discriminate].
    intros [= <-]. cbn. now apply Nat.eqb_eq. }
  destruct (length first =? 128)%nat; [|discriminate].
  destruct (SplitList rest) as [[children r']|e]; cbn [bind]; [|discriminate].
  unfold createInternalNode, newInternalNode.
  destruct (fillChildren _ _ _) as [ch|e] eqn:Hf; cbn [bind]; [|discriminate].
  intros [= <-]. apply fillChildren_shape in Hf as [Hl Hs].
  - cbn. rewrite repeat_length in Hl. auto.
  - intros j c0 Hj. apply lookup_repeat_inv in Hj. discriminate.
Qed.

Lemma ParseNode_result_shape_witness :
  ParseNode (encode (RList [RStr (bitlist128 [x01]);
                            RList [RList [RStr zeroKeyTest; RStr testValue]]])) tc10
    = Ok (InternalNode 0 leafSlots) /\
  parsedShape tc10 (InternalNode 0 leafSlots).
Proof.
  assert (H : ParseNode (encode (RList [RStr (bitlist128 [x01]);
                            RList [RList [RStr zeroKeyTest; RStr testValue]]])) tc10
              = Ok (InternalNode 0 leafSlots)) by (vm_compute; reflexivity).
  split; [exact H|]. exact (ParseNode_result_shape _ _ _ H).
Defined.

(** ** The children list of an internal node *)

Lemma payload_app (l1 l2 : list item) : payload (l1 ++ l2) = payload l1 ++ payload l2.
Proof. unfold payload. now rewrite map_app, concat_app. Qed.

Lemma fillChildren_rest (idx : list nat) :
  forall (cs : list item) (rest : list byte) (ch : list (option VerkleNode)),
  forallb item_ok cs = true -> (length idx <= length cs)%nat ->
  fillChildren idx (payload cs ++ rest) ch = fillChildren idx (payload cs) ch.
Proof.
  induction idx as [|s idx IH]; intros cs rest ch Hok Hlen; [reflexivity|].
  destruct cs as [|c cs]; [cbn in Hlen; lia|].
  cbn [forallb] in Hok. apply andb_prop in Hok as [Hc Hok].
  change (payload (c :: cs)) with (encode c ++ payload cs).
  rewrite <- app_assoc. destruct c as [str|l].
  - cbn [fillChildren]. rewrite !SplitList_str by exact Hc. reflexivity.
  - cbn [fillChildren]. rewrite !SplitList_list by exact Hc. cbn [bind].
    destruct (CountValues (payload l)) as [n|e]; cbn [bind]; [|reflexivity].
    match goal with |- bind ?m _ = bind ?m _ => destruct m as [ch'|e] end;
      cbn [bind]; [|reflexivity].
    apply IH; [exact Hok|cbn in Hlen; lia].
Qed.

(** [createInternalNode] reads only as many children as the bitlist has
    set bits: children past those, and bytes after the node, are ignored,
    whatever they hold (even children that would not parse). *)
Theorem ParseNode_ignores_surplus_children (bl : list byte) (cs extra : list item)
    (tail : list byte) (tc : TreeConfig) :
  length bl = 128%nat ->
  item_ok (RList [RStr bl; RList (cs ++ extra)]) = true ->
  item_ok (RList [RStr bl; RList cs]) = true ->
  length cs = length (indicesFromBitlist bl) ->
  ParseNode (encode (RList [RStr bl; RList (cs ++ extra)]) ++ tail) tc
  = ParseNode (encode (RList [RStr bl; RList cs])) tc.
Proof.
  intros Hbl Hok1 Hok2 Hlen.
  pose proof (ParseNode_encode _ tail tc Hok1) as H1.
  pose proof (ParseNode_encode _ [] tc Hok2) as H2. rewrite app_nil_r in H2.
  cbn [shapeSpec] in H1, H2.
  replace (length bl =? 128)%nat with true in H1 by (symmetry; now apply Nat.eqb_eq).
  replace (length bl =? 128)%nat with true in H2 by (symmetry; now apply Nat.eqb_eq).
  cbv beta iota in H1, H2. rewrite H1, H2. unfold createInternalNode, newInternalNode.
  rewrite payload_app, fillChildren_rest; [reflexivity| |lia].
  exact (item_ok_internal _ _ Hok2).
Qed.

Lemma ParseNode_ignores_surplus_children_witness :
  ParseNode (encode (RList [RStr (bitlist128 [x01]);
                            RList [RList [RStr zeroKeyTest; RStr testValue];
                                   RStr [x07]; RList []]]) ++ [xff]) tc10
  = ParseNode (encode (RList [RStr (bitlist128 [x01]);
                              RList [RList [RStr zeroKeyTest; RStr testValue]]])) tc10.
Proof.
  apply (ParseNode_ignores_surplus_children (bitlist128 [x01])
           [RList [RStr zeroKeyTest; RStr testValue]] [RStr [x07]; RList []] [xff] tc10);
    vm_compute; reflexivity.
Defined.

Lemma fillChildren_skip (k : nat) :
  forall (idx : list nat) (cs : list item) (rest : list byte) (ch : list (option VerkleNode)),
  forallb item_ok cs = true ->
  (forall j it, (j < k)%nat -> cs !! j = Some it -> childOk it = true) ->
  (forall j s, (j < k)%nat -> idx !! j = Some s -> (s < length ch)%nat) ->
  (k <= length idx)%nat -> (k <= length cs)%nat ->
  exists ch', length ch' = length ch /\
    fillChildren idx (payload cs ++ rest) ch
    = fillChildren (drop k idx) (payload (drop k cs) ++ rest) ch'.
Proof.
  induction k as [|k IH]; intros idx cs rest ch Hok Hc Hs Hki Hkc.
  - exists ch. split; [reflexivity|]. reflexivity.
  - destruct idx as [|s idx]; [cbn in Hki; lia|].
    destruct cs as [|c cs]; [cbn in Hkc; lia|].
    cbn [forallb] in Hok. apply andb_prop in Hok as [Hok1 Hok2].
    change (payload (c :: cs)) with (encode c ++ payload cs).
    rewrite <- app_assoc, fillChildren_step;
      [|exact Hok1|apply (Hc 0%nat); [lia|reflexivity]|apply (Hs 0%nat); [lia|reflexivity]].
    set (ch1 := match childOf c with Some n => <[s := Some n]> ch | None => ch end).
    assert (Hl1 : length ch1 = length ch)
      by (unfold ch1; destruct (childOf c); rewrite ?length_insert; reflexivity).
    destruct (IH idx cs rest ch1) as (ch' & Hl & Heq).
    + exact Hok2.
    + intros j it Hj Hit. apply (Hc (S j)); [lia|exact Hit].
    + intros j s' Hj Hs'. rewrite Hl1. apply (Hs (S j)); [lia|exact Hs'].
    + cbn in Hki; lia.
    + cbn in Hkc; lia.
    + exists ch'. split; [congruence|exact Heq].
Qed.

Lemma indices_in_range (bl : list byte) (tc : TreeConfig) (j s : nat) :
  length bl = 128%nat -> (8 * 128 <= nodeChildren tc)%nat ->
  indicesFromBitlist bl !! j = Some s -> (s < length (repeat (@None VerkleNode) (nodeChildren tc)))%nat.
Proof.
  intros Hbl Htc Hs. apply list_elem_of_lookup_2, bound_indicesFrom in Hs.
  rewrite repeat_length. lia.
Qed.

(** When the children list holds fewer children than the bitlist has set
    bits (and the children it holds are of the shapes the loop accepts),
    the loop runs out of input: [ParseNode] fails with
    [io.ErrUnexpectedEOF]. *)
Theorem ParseNode_too_few_children (bl : list byte) (cs : list item) (tail : list byte)
    (tc : TreeConfig) :
  item_ok (RList [RStr bl; RList cs]) = true -> length bl = 128%nat ->
  (8 * 128 <= nodeChildren tc)%nat -> forallb childOk cs = true ->
  (length cs < length (indicesFromBitlist bl))%nat ->
  ParseNode (encode (RList [RStr bl; RList cs]) ++ tail) tc = Err ErrUnexpectedEOF.
Proof.
  intros Hok Hbl Htc Hc Hlt.
  pose proof (ParseNode_encode _ tail tc Hok) as HP. cbn [shapeSpec] in HP.
  replace (length bl =? 128)%nat with true in HP by (symmetry; now apply Nat.eqb_eq).
  cbv beta iota in HP. rewrite HP. unfold createInternalNode, newInternalNode.
  rewrite <- (app_nil_r (payload cs)).
  destruct (fillChildren_skip (length cs) (indicesFromBitlist bl) cs []
              (repeat None (nodeChildren tc))) as (ch' & _ & ->).
  - exact (item_ok_internal _ _ Hok).
  - intros j it _ Hit. rewrite forallb_forall in Hc. apply Hc, list_elem_of_In.
    exact (list_elem_of_lookup_2 _ _ _ Hit).
  - intros j s _ Hs. exact (indices_in_range bl tc j s Hbl Htc Hs).
  - lia.
  - lia.
  - rewrite drop_all. cbn [payload map concat app].
    destruct (drop (length cs) (indicesFromBitlist bl)) as [|s idx] eqn:Ed.
    + apply (f_equal length) in Ed. rewrite length_drop in Ed. cbn in Ed. lia.
    + reflexivity.
Qed.

Lemma ParseNode_too_few_children_witness :
  ParseNode (encode (RList [RStr (bitlist128 [x03]);
                            RList [RList [RStr zeroKeyTest; RStr testValue]]]) ++ []) tc10
  = Err ErrUnexpectedEOF.
Proof.
  apply (ParseNode_too_few_children (bitlist128 [x03])
           [RList [RStr zeroKeyTest; RStr testValue]] [] tc10);
    try (vm_compute; reflexivity); try (vm_compute; lia).
Defined.

(** A child that is a string rather than a list, standing where the
    bitlist has a slot for it after children the loop accepts, makes
    [ParseNode] fail with [rlp.ErrExpectedList]. *)
Theorem ParseNode_string_child (bl : list byte) (cs : list item) (tail : list byte)
    (tc : TreeConfig) (k : nat) (x : list byte) :
  item_ok (RList [RStr bl; RList cs]) = true -> length bl = 128%nat ->
  (8 * 128 <= nodeChildren tc)%nat ->
  (forall j it, (j < k)%nat -> cs !! j = Some it -> childOk it = true) ->
  (k < length (indicesFromBitlist bl))%nat -> cs !! k = Some (RStr x) ->
  ParseNode (encode (RList [RStr bl; RList cs]) ++ tail) tc = Err ErrExpectedList.
Proof.
  intros Hok Hbl Htc Hc Hk Hx.
  pose proof (ParseNode_encode _ tail tc Hok) as HP. cbn [shapeSpec] in HP.
  replace (length bl =? 128)%nat with true in HP by (symmetry; now apply Nat.eqb_eq).
  cbv beta iota in HP. rewrite HP. unfold createInternalNode, newInternalNode.
  pose proof (item_ok_internal _ _ Hok) as Hcs.
  rewrite <- (app_nil_r (payload cs)).
  destruct (fillChildren_skip k (indicesFromBitlist bl) cs []
              (repeat None (nodeChildren tc))) as (ch' & _ & ->).
  - exact Hcs.
  - exact Hc.
  - intros j s _ Hs. exact (indices_in_range bl tc j s Hbl Htc Hs).
  - lia.
  - apply lookup_lt_Some in Hx. lia.
  - destruct (lookup_lt_is_Some_2 (indicesFromBitlist bl) k Hk) as [s Hs].
    rewrite (drop_S _ _ _ Hs), (drop_S _ _ _ Hx).
    change (payload (RStr x :: drop (S k) cs)) with (encode (RStr x) ++ payload (drop (S k) cs)).
    rewrite <- app_assoc. cbn [fillChildren].
    rewrite SplitList_str; [reflexivity|].
    rewrite forallb_forall in Hcs. apply Hcs, list_elem_of_In.
    exact (list_elem_of_lookup_2 _ _ _ Hx).
Qed.

Lemma ParseNode_string_child_witness :
  ParseNode (encode (RList [RStr (bitlist128 [x03]);
                            RList [RList [RStr zeroKeyTest; RStr testValue];
                                   RStr [x01; x02]]]) ++ []) tc10
  = Err ErrExpectedList.
Proof.
  apply (ParseNode_string_child (bitlist128 [x03])
           [RList [RStr zeroKeyTest; RStr testValue]; RStr [x01; x02]] [] tc10 1 [x01; x02]);
    try (vm_compute; reflexivity); try (vm_compute; lia).
  intros j it Hj Hit. destruct j as [|j]; [|lia]. injection Hit as <-. reflexivity.
Defined.

(** ** Slots past the node's width *)

Lemma childOf_Some_childOk (it : item) (n : VerkleNode) :
  childOf it = Some n -> childOk it = true.
Proof.
  intros H. destruct it as [s|l]; [discriminate|].
  destruct l as [|x l]; [discriminate|]. destruct x as [h|lx]; [|discriminate].
  destruct l as [|y l]; [reflexivity|]. destruct y as [v|ly]; [|discriminate].
  destruct l; [reflexivity|discriminate].
Qed.

Lemma fillChildren_step_oob (c : item) (n : VerkleNode) (idx : list nat) (s : nat)
    (r : list byte) (ch : list (option VerkleNode)) :
  item_ok c = true -> childOf c = Some n -> (length ch <= s)%nat ->
  fillChildren (s :: idx) (encode c ++ r) ch = Err ErrIndexOutOfRange.
Proof.
  intros Hok Hn Hs. destruct c as [str|l]; [discriminate|].
  cbn [fillChildren]. rewrite SplitList_list by exact Hok. cbn [bind].
  assert (Hl : forallb item_ok l = true)
    by (cbn in Hok; apply andb_prop in Hok; tauto).
  rewrite CountValues_payload by exact Hl. cbn [bind].
  unfold setChild. rewrite (proj2 (Nat.ltb_ge _ _) Hs).
  destruct l as [|x [|y [|z l]]]; cbn [length].
  - discriminate.
  - change (payload [x]) with (encode x ++ []).
    cbn in Hl. rewrite andb_true_r in Hl.
    rewrite parseHashedNode_enc by exact Hl.
    destruct x; [reflexivity|discriminate].
  - change (payload [x; y]) with (encode x ++ encode y ++ []).
    cbn in Hl. rewrite andb_true_r in Hl. apply andb_prop in Hl as [Hx Hy].
    rewrite parseLeafNode_enc by assumption.
    destruct x as [k|]; [|discriminate]. destruct y; [reflexivity|discriminate].
  - destruct x as [?|?]; [destruct y|]; discriminate.
Qed.

Lemma fillChildren_oob (idx : list nat) :
  forall (cs : list item) (r : list byte) (ch : list (option VerkleNode)),
  forallb item_ok cs = true -> Forall (fun it => childOf it <> None) cs ->
  (length idx <= length cs)%nat ->
  (exists s, s ∈ idx /\ (length ch <= s)%nat) ->
  fillChildren idx (payload cs ++ r) ch = Err ErrIndexOutOfRange.
Proof.
  induction idx as [|s idx IH]; intros cs r ch Hok Hsh Hlen (s0 & Hs0 & Hge).
  - inversion Hs0.
  - destruct cs as [|c cs]; [cbn in Hlen; lia|].
    cbn [forallb] in Hok. apply andb_prop in Hok as [Hok1 Hok2].
    apply Forall_cons in Hsh as [Hc Hsh].
    destruct (childOf c) as [n|] eqn:En; [|congruence].
    change (payload (c :: cs)) with (encode c ++ payload cs). rewrite <- app_assoc.
    destruct (Nat.lt_ge_cases s (length ch)) as [Hlt|Hge'].
    + rewrite fillChildren_step by (try exact Hok1; try exact Hlt;
                                     exact (childOf_Some_childOk c n En)).
      rewrite En. apply IH; [exact Hok2|exact Hsh|cbn in Hlen; lia|].
      exists s0. rewrite length_insert. split; [|exact Hge].
      apply elem_of_cons in Hs0 as [->|Hs0]; [lia|exact Hs0].
    + exact (fillChildren_step_oob c n idx s _ ch Hok1 En Hge').
Qed.

(** [createInternalNode] stores children with [n.children[index] = ...],
    which panics when the index is past the [2^w] slots of the node.  A
    128-byte bitlist has 1024 bits, so for a width below 10 a set bit at a
    slot [s >= nodeChildren tc] makes [ParseNode] fail with the index
    error, when the children are hashed nodes or leaves, one per set
    bit. *)
Theorem ParseNode_slot_out_of_range (bl : list byte) (cs : list item) (tail : list byte)
    (tc : TreeConfig) (s : nat) :
  item_ok (RList [RStr bl; RList cs]) = true -> length bl = 128%nat ->
  Forall (fun it => childOf it <> None) cs ->
  length cs = length (indicesFromBitlist bl) ->
  s ∈ indicesFromBitlist bl -> (nodeChildren tc <= s)%nat ->
  ParseNode (encode (RList [RStr bl; RList cs]) ++ tail) tc = Err ErrIndexOutOfRange.
Proof.
  intros Hok Hbl Hsh Hlen Hs Hge.
  pose proof (ParseNode_encode _ tail tc Hok) as HP. cbn [shapeSpec] in HP.
  replace (length bl =? 128)%nat with true in HP by (symmetry; now apply Nat.eqb_eq).
  cbv beta iota in HP. rewrite HP. unfold createInternalNode, newInternalNode.
  rewrite <- (app_nil_r (payload cs)).
  rewrite fillChildren_oob; [reflexivity|exact (item_ok_internal _ _ Hok)|exact Hsh|lia|].
  exists s. rewrite repeat_length. auto.
Qed.

Lemma ParseNode_slot_out_of_range_witness :
  ParseNode (encode (RList [RStr (bitlist128 (repeat x00 32 ++ [x01]));
                            RList [RList [RStr zeroKeyTest; RStr testValue]]]) ++ [])
            {| nodeWidth := 8 |}
  = Err ErrIndexOutOfRange.
Proof.
  apply (ParseNode_slot_out_of_range (bitlist128 (repeat x00 32 ++ [x01]))
           [RList [RStr zeroKeyTest; RStr testValue]] [] {| nodeWidth := 8 |} 256).
  - vm_compute; reflexivity.
  - vm_compute; reflexivity.
  - constructor; [cbn; discriminate|constructor].
  - vm_compute; reflexivity.
  - apply (list_elem_of_lookup_2 _ 0%nat). vm_compute. reflexivity.
  - vm_compute. lia.
Defined.

(** ** The errors of the top level *)

Lemma ParseNode_pair (x y : item) (tail : list byte) (tc : TreeConfig) :
  item_ok (RList [x; y]) = true ->
  ParseNode (encode (RList [x; y]) ++ tail) tc
  = if negb (kind_eqb (kindOf x) String) then Err ErrInvalidNodeEncoding
    else if (length (content x) =? 32)%nat then
      bind (SplitString (encode y ++ [])) (fun '(value, _) => Ok (LeafNode (content x) value))
    else if (length (content x) =? 128)%nat then
      bind (SplitList (encode y ++ [])) (fun '(children, _) =>
        createInternalNode (content x) children tc)
    else Err ErrInvalidNodeEncoding.
Proof.
  intros Hok. unfold ParseNode. rewrite SplitList_list by exact Hok. cbn [bind].
  pose proof Hok as Hl. cbn [item_ok] in Hl. apply andb_prop in Hl as [Hl _].
  rewrite CountValues_payload by exact Hl. cbn [bind length Nat.eqb].
  cbn [forallb] in Hl. rewrite andb_true_r in Hl. apply andb_prop in Hl as [Hx Hy].
  change (payload [x; y]) with (encode x ++ encode y ++ []).
  rewrite Split_encode by exact Hx. reflexivity.
Qed.

Lemma kindOf_long_str (s : list byte) : length s <> 1%nat -> kindOf (RStr s) = String.
Proof. intros H. destruct s as [|b [|b2 s]]; cbn in *; auto; lia. Qed.

(** The error each malformed top-level shape gives: an empty input is
    [io.ErrUnexpectedEOF]; a string is [rlp.ErrExpectedList]; a list of
    zero or of three or more elements, a pair whose first element is a
    list, and a pair whose first element is a string of a length other
    than 32 and 128 are [ErrInvalidNodeEncoding]; a 32-byte key followed
    by a list is [rlp.ErrExpectedString]; a 128-byte bitlist followed by a
    string is [rlp.ErrExpectedList]. *)
Theorem ParseNode_error_values (it : item) (tail : list byte) (tc : TreeConfig) :
  item_ok it = true ->
  ParseNode [] tc = Err ErrUnexpectedEOF /\
  (forall s, it = RStr s -> ParseNode (encode it ++ tail) tc = Err ErrExpectedList) /\
  (forall l, it = RList l -> (length l = 0 \/ 3 <= length l)%nat ->
     ParseNode (encode it ++ tail) tc = Err ErrInvalidNodeEncoding) /\
  (forall l y, it = RList [RList l; y] ->
     ParseNode (encode it ++ tail) tc = Err ErrInvalidNodeEncoding) /\
  (forall s y, it = RList [RStr s; y] -> length s <> 32%nat -> length s <> 128%nat ->
     ParseNode (encode it ++ tail) tc = Err ErrInvalidNodeEncoding) /\
  (forall s l, it = RList [RStr s; RList l] -> length s = 32%nat ->
     ParseNode (encode it ++ tail) tc = Err ErrExpectedString) /\
  (forall s v, it = RList [RStr s; RStr v] -> length s = 128%nat ->
     ParseNode (encode it ++ tail) tc = Err ErrExpectedList).
Proof.
  intros Hok. split; [reflexivity|]. split; [|split; [|split; [|split; [|split]]]].
  - intros s ->. unfold ParseNode. rewrite SplitList_str by exact Hok. reflexivity.
  - intros l -> Hl. unfold ParseNode. rewrite SplitList_list by exact Hok. cbn [bind].
    pose proof Hok as Hl'. cbn [item_ok] in Hl'. apply andb_prop in Hl' as [Hl' _].
    rewrite CountValues_payload by exact Hl'. cbn [bind].
    destruct l as [|x [|y [|z l]]]; cbn [length] in *; try lia; reflexivity.
  - intros l y ->. rewrite ParseNode_pair by exact Hok. reflexivity.
  - intros s y -> H32 H128. rewrite ParseNode_pair by exact Hok. cbn [content].
    rewrite (proj2 (Nat.eqb_neq _ _) H32), (proj2 (Nat.eqb_neq _ _) H128).
    destruct (negb _); reflexivity.
  - intros s l -> H32. rewrite ParseNode_pair by exact Hok. cbn [content].
    rewrite kindOf_long_str by lia. rewrite H32. cbn [negb kind_eqb Nat.eqb].
    rewrite SplitString_list; [reflexivity|].
    cbn [item_ok forallb] in Hok. repeat rewrite andb_true_iff in Hok.
    cbn [item_ok]. rewrite andb_true_iff. tauto.
  - intros s v -> H128. rewrite ParseNode_pair by exact Hok. cbn [content].
    rewrite kindOf_long_str by lia. rewrite H128. cbn [negb kind_eqb Nat.eqb].
    rewrite SplitList_str; [reflexivity|].
    cbn [item_ok forallb] in Hok. repeat rewrite andb_true_iff in Hok. tauto.
Qed.

Lemma ParseNode_error_values_witness :
  ParseNode (encode (RList [RStr zeroKeyTest; RList []]) ++ []) tc10 = Err ErrExpectedString.
Proof.
  destruct (ParseNode_error_values (RList [RStr zeroKeyTest; RList []]) [] tc10
              ltac:(vm_compute; reflexivity)) as (_ & _ & _ & _ & _ & H & _).
  apply (H zeroKeyTest []); reflexivity.
Defined.

(** ** indicesFromBitlist *)

Lemma length_byteIndices (i : nat) (b : byte) : length (byteIndices i b) = bitsSet 8 (bval b).
Proof. destruct b; reflexivity. Qed.

Lemma length_indicesFrom (i : nat) (bl : list byte) :
  length (indicesFrom i bl) = setBitCount bl.
Proof.
  revert i. induction bl as [|b bl IH]; intros i; [reflexivity|].
  cbn [indicesFrom]. rewrite length_app, length_byteIndices, IH. reflexivity.
Qed.

(** [indicesFromBitlist] returns one index per set bit of the bitlist (so
    an internal node of [ParseNode] reads [setBitCount bitlist] children),
    never the same index twice, and only indices below
    [8 * len(bitlist)]. *)
Theorem indicesFromBitlist_count (bl : list byte) :
  length (indicesFromBitlist bl) = setBitCount bl /\
  NoDup (indicesFromBitlist bl) /\
  (forall s, s ∈ indicesFromBitlist bl -> (s < 8 * length bl)%nat).
Proof.
  split; [apply length_indicesFrom|].
  split; [apply StronglySorted_lt_NoDup, sorted_indicesFrom|].
  intros s Hs. apply bound_indicesFrom in Hs. lia.
Qed.

(** * The keys of BenchmarkCommitFullNode *)

Lemma shl6_u16_period (i : nat) : shl6_u16 (i + 1024) = shl6_u16 i.
Proof.
  unfold shl6_u16. change 0xffff%Z with (Z.ones 16).
  rewrite !Z.land_ones by lia. rewrite !Z.shiftl_mul_pow2 by lia.
  change (2 ^ 16)%Z with 65536%Z. change (2 ^ 6)%Z with 64%Z.
  rewrite !Z.mul_mod_idemp_l by lia. rewrite Nat2Z.inj_add.
  replace ((Z.of_nat i + Z.of_nat 1024) * 64)%Z with (Z.of_nat i * 64 + 1 * 65536)%Z by lia.
  apply Z_mod_plus_full.
Qed.

(** The key BenchmarkCommitFullNode builds for [i < 1024] is 32 bytes long
    and its first 10 bits are [i]: in a width-10 tree it goes to root slot
    [i] ([offset2key] as modelled from the spec), so the 1024 keys fill the 1024 slots of the root, one each.  Past
    1024 the 16-bit shift wraps and the keys repeat. *)
Theorem fullNodeKey_slot (i : nat) :
  (i < 1024)%nat ->
  length (fullNodeKey i) = 32%nat /\ offset2key 10 (fullNodeKey i) 0 = i /\
  fullNodeKey (i + 1024) = fullNodeKey i.
Proof.
  intros Hi. split; [reflexivity|]. split.
  - assert (Hall : forallb (fun j => offset2key 10 (fullNodeKey j) 0 =? j)%nat (seq 0 1024)
                   = true) by (vm_compute; reflexivity).
    rewrite forallb_forall in Hall. apply Nat.eqb_eq, Hall, in_seq. lia.
  - unfold fullNodeKey. now rewrite shl6_u16_period.
Qed.

Lemma fullNodeKey_slot_witness :
  length (fullNodeKey 1023) = 32%nat /\ offset2key 10 (fullNodeKey 1023) 0 = 1023%nat /\
  fullNodeKey (1023 + 1024) = fullNodeKey 1023.
Proof. apply fullNodeKey_slot. lia. Defined.

(** * Inserting keys of distinct root slots *)

Section DistinctSlots.

Context (w : nat) {Fr : Type}.

Lemma ins_empty_slot (fuel d : nat) (ch : list (option (@node Fr))) (k v : list byte) :
  ch !! offset2key w k d = Some None ->
  ins w (S fuel) (Internal d ch) k v
  = Ok (Internal d (<[offset2key w k d := Some (Leaf k v)]> ch)).
Proof. intros H. cbn [ins]. rewrite H. reflexivity. Qed.

Lemma insertAll_distinct_slots_gen (ops : list (list byte * list byte)) :
  forall (ch0 : list (option (@node Fr))),
  NoDup (map (fun kv => offset2key w kv.1 0) ops) ->
  (forall k v, (k, v) ∈ ops -> ch0 !! offset2key w k 0 = Some None) ->
  exists ch, insertAll w (Internal 0 ch0) ops = Ok (Internal 0 ch) /\
    length ch = length ch0 /\
    (forall k v, (k, v) ∈ ops -> ch !! offset2key w k 0 = Some (Some (Leaf k v))) /\
    (forall j, j ∉ map (fun kv => offset2key w kv.1 0) ops -> ch !! j = ch0 !! j).
Proof.
  induction ops as [|[k v] ops IH]; intros ch0 Hnd Hfree.
  - exists ch0. split; [reflexivity|]. split; [reflexivity|]. split; [|reflexivity].
    intros k v Hk. inversion Hk.
  - cbn [map] in Hnd. apply NoDup_cons in Hnd as [Hni Hnd]. cbn [fst] in Hni.
    assert (Hk0 : ch0 !! offset2key w k 0 = Some None)
      by (apply (Hfree k v); constructor).
    cbn [insertAll]. unfold Insert. rewrite ins_empty_slot by exact Hk0. cbn [bind].
    set (ch1 := <[offset2key w k 0 := Some (Leaf k v)]> ch0).
    destruct (IH ch1) as (ch & Hins & Hl & Hin & Hout).
    + exact Hnd.
    + intros k' v' Hk'. unfold ch1. rewrite list_lookup_insert_ne.
      * apply (Hfree k' v'). apply elem_of_cons. right. exact Hk'.
      * intros He. apply Hni. rewrite He. apply list_elem_of_In, in_map_iff.
        exists (k', v'). split; [reflexivity|]. apply list_elem_of_In, Hk'.
    + exists ch. split; [exact Hins|]. split; [rewrite Hl; apply length_insert|].
      split.
      * intros k' v' Hk'. apply elem_of_cons in Hk' as [[= -> ->]|Hk'].
        -- rewrite Hout by exact Hni. unfold ch1. apply list_lookup_insert_eq.
           apply lookup_lt_Some in Hk0. exact Hk0.
        -- exact (Hin k' v' Hk').
      * intros j Hj. cbn [map] in Hj. apply not_elem_of_cons in Hj as [Hj1 Hj2].
        rewrite Hout by exact Hj2. unfold ch1. apply list_lookup_insert_ne.
        cbn [fst] in Hj1. congruence.
Qed.

End DistinctSlots.

(** Modelled from the spec ([Insert] and [New] of tree.go): inserting into
    a fresh tree keys whose root slots (their first [w] bits) are pairwise
    distinct puts each key, with its value, as a leaf straight into its root
    slot, and leaves every other root slot empty. *)
Theorem insertAll_distinct_slots (w : nat) {Fr : Type} (ops : list (list byte * list byte)) :
  NoDup (map (fun kv => offset2key w kv.1 0) ops) ->
  exists ch, insertAll w (New w) ops = Ok (@Internal Fr 0 ch) /\
    length ch = NodeChildren w /\
    (forall k v, (k, v) ∈ ops -> ch !! offset2key w k 0 = Some (Some (Leaf k v))) /\
    (forall j, (j < NodeChildren w)%nat -> j ∉ map (fun kv => offset2key w kv.1 0) ops ->
       ch !! j = Some None).
Proof.
  intros Hnd. unfold New, newInternal.
  destruct (insertAll_distinct_slots_gen w (Fr := Fr) ops (repeat None (NodeChildren w)) Hnd)
    as (ch & Hins & Hl & Hin & Hout).
  - intros k v _. apply lookup_repeat_lt, offset2key_lt.
  - exists ch. rewrite repeat_length in Hl. split; [exact Hins|]. split; [exact Hl|].
    split; [exact Hin|]. intros j Hj Hn. rewrite Hout by exact Hn.
    now apply lookup_repeat_lt.
Qed.

Lemma insertAll_distinct_slots_witness :
  exists ch, insertAll 10 (New 10) [(zeroKeyTest, testValue); (ffx32KeyTest, testValue)]
             = Ok (@Internal Z 0 ch) /\
    ch !! 0%nat = Some (Some (Leaf zeroKeyTest testValue)) /\
    ch !! 1023%nat = Some (Some (Leaf ffx32KeyTest testValue)).
Proof.
  destruct (insertAll_distinct_slots 10 (Fr := Z)
              [(zeroKeyTest, testValue); (ffx32KeyTest, testValue)]
              ltac:(apply (bool_decide_unpack _); vm_compute; exact I))
    as (ch & Hins & _ & Hin & _).
  exists ch. split; [exact Hins|]. split.
  - exact (Hin zeroKeyTest testValue ltac:(constructor)).
  - exact (Hin ffx32KeyTest testValue ltac:(constructor; constructor)).
Defined.
